(** * Backup metadata of backup-cli: records, compaction and naming

    A shallow embedding of [storage/backup/backup-cli/src/metadata/mod.rs].
    Unsigned 64-bit integers ([u64], [Version]) are [N] values that are
    well formed when at most [U64_MAX]; the arithmetic on them is the
    overflow-checked arithmetic of Rust (an overflowing [+ 1] or [- 1]
    panics, as with [overflow-checks] enabled).  A [Result] of [anyhow]
    is an [Outcome]: [Ok], [Err] with the error the [ensure!] raises, or
    [Panic] for an arithmetic overflow or a failed [unwrap]. *)

From Stdlib Require Import NArith List String Ascii Lia.
From Stdlib Require Import Numbers.DecimalString Numbers.DecimalN Numbers.DecimalPos.
Import ListNotations.

Open Scope N_scope.

(** ** Machine integers *)

Definition U64_MAX : N := 2 ^ 64 - 1.

Definition u64 := N.
Definition Version := u64.

(** [FileHandle] is a [String] in the storage module. *)
Definition FileHandle := string.

(** [HashValue] is a 256-bit value. *)
Definition HashValue := N.

(** ** Results *)

(** The errors raised by the [ensure!]s of the compaction functions; the
    comment next to each gives its message. *)
Inductive Error :=
  (** "compacting an empty metadata vector" *)
  | EmptyMetadataVector
  (** "Epoch ending backup ranges is not continuous expecting epoch {}, got {}." *)
  | EpochEndingNotContinuous (expecting got : u64)
  (** "state backup ranges is not continuous expecting epoch {}, got {}." *)
  | StateEpochNotContinuous (expecting got : u64)
  (** "state backup ranges is not continuous expecting version {}, got {}." *)
  | StateVersionNotContinuous (expecting got : u64)
  (** "txn backup ranges is not continuous expecting version {}, got {}." *)
  | TxnNotContinuous (expecting got : u64).

Inductive Outcome (A : Type) :=
  | Ok (a : A)
  | Err (e : Error)
  | Panic.

Arguments Ok {A} a.
Arguments Err {A} e.
Arguments Panic {A}.

Definition bind {A B} (m : Outcome A) (f : A -> Outcome B) : Outcome B :=
  match m with
  | Ok a => f a
  | Err e => Err e
  | Panic => Panic
  end.

Notation "x <- m ;; k" := (bind m (fun x => k))
  (at level 61, m at next level, right associativity).
Notation "m ;;; k" := (bind m (fun _ : unit => k))
  (at level 61, right associativity).

(** [ensure!(cond, err)] *)
Definition ensure (cond : bool) (e : Error) : Outcome unit :=
  if cond then Ok tt else Err e.

(** [a + b] on [u64], panicking on overflow. *)
Definition add_u64 (a b : u64) : Outcome u64 :=
  if a + b <=? U64_MAX then Ok (a + b) else Panic.

(** [a - b] on [u64], panicking on underflow. *)
Definition sub_u64 (a b : u64) : Outcome u64 :=
  if b <=? a then Ok (a - b) else Panic.

(** ** Records *)

Module EpochEndingBackupMeta.
Record t := mk {
  first_epoch : u64;
  last_epoch : u64;
  first_version : Version;
  last_version : Version;
  manifest : FileHandle
}.
End EpochEndingBackupMeta.

Module EpochEndingBackupMetaRange.
Record t := mk {
  first_epoch : u64;
  last_epoch : u64;
  first_version : Version;
  last_version : Version;
  backup_metas : list EpochEndingBackupMeta.t
}.
End EpochEndingBackupMetaRange.

Module StateSnapshotBackupMeta.
Record t := mk {
  epoch : u64;
  version : Version;
  manifest : FileHandle
}.
End StateSnapshotBackupMeta.

Module StateSnapshotBackupMetaRange.
Record t := mk {
  first_epoch : u64;
  last_epoch : u64;
  first_version : Version;
  last_version : Version;
  backup_metas : list StateSnapshotBackupMeta.t
}.
End StateSnapshotBackupMetaRange.

Module TransactionBackupMeta.
Record t := mk {
  first_version : Version;
  last_version : Version;
  manifest : FileHandle
}.
End TransactionBackupMeta.

Module TransactionBackupMetaRange.
Record t := mk {
  first_version : Version;
  last_version : Version;
  backup_metas : list TransactionBackupMeta.t
}.
End TransactionBackupMetaRange.

Module IdentityMeta.
Record t := mk { id : HashValue }.
End IdentityMeta.

Inductive Metadata :=
  | EpochEndingBackup (e : EpochEndingBackupMeta.t)
  | EpochEndingBackupRange (e : EpochEndingBackupMetaRange.t)
  | StateSnapshotBackup (s : StateSnapshotBackupMeta.t)
  | StateSnapshotBackupRange (s : StateSnapshotBackupMetaRange.t)
  | TransactionBackup (t : TransactionBackupMeta.t)
  | TransactionBackupRange (t : TransactionBackupMetaRange.t)
  | Identity (i : IdentityMeta.t).

(** ** Leaf constructors *)

Definition new_epoch_ending_backup (first_epoch last_epoch : u64)
  (first_version last_version : Version) (manifest : FileHandle) : Metadata :=
  EpochEndingBackup
    (EpochEndingBackupMeta.mk first_epoch last_epoch first_version last_version manifest).

Definition new_state_snapshot_backup (epoch : u64) (version : Version)
  (manifest : FileHandle) : Metadata :=
  StateSnapshotBackup (StateSnapshotBackupMeta.mk epoch version manifest).

Definition new_transaction_backup (first_version last_version : Version)
  (manifest : FileHandle) : Metadata :=
  TransactionBackup (TransactionBackupMeta.mk first_version last_version manifest).

(** ** Compaction *)

(** The [for backup in backup_metas.iter().skip(1)] loop of
    [new_epoch_ending_backup_range], threading [next_epoch] and
    [next_version]. *)
Fixpoint epoch_ending_loop (next_epoch next_version : u64)
  (rest : list EpochEndingBackupMeta.t) : Outcome (u64 * Version) :=
  match rest with
  | [] => Ok (next_epoch, next_version)
  | backup :: rest' =>
      ensure (next_epoch =? EpochEndingBackupMeta.first_epoch backup)
        (EpochEndingNotContinuous next_epoch (EpochEndingBackupMeta.first_epoch backup)) ;;;
      next_epoch' <- add_u64 (EpochEndingBackupMeta.last_epoch backup) 1 ;;
      epoch_ending_loop next_epoch' (EpochEndingBackupMeta.last_version backup) rest'
  end.

Definition new_epoch_ending_backup_range (backup_metas : list EpochEndingBackupMeta.t)
  : Outcome Metadata :=
  match backup_metas with
  | [] => Err EmptyMetadataVector
  | backup_meta :: rest =>
      let first_epoch := EpochEndingBackupMeta.first_epoch backup_meta in
      next_epoch <- add_u64 (EpochEndingBackupMeta.last_epoch backup_meta) 1 ;;
      let first_version := EpochEndingBackupMeta.first_version backup_meta in
      let next_version := EpochEndingBackupMeta.last_version backup_meta in
      nv <- epoch_ending_loop next_epoch next_version rest ;;
      last_epoch <- sub_u64 (fst nv) 1 ;;
      Ok (EpochEndingBackupRange
            (EpochEndingBackupMetaRange.mk first_epoch last_epoch first_version
               (snd nv) backup_metas))
  end.

(** The loop of [new_statesnapshot_backup_range]. *)
Fixpoint statesnapshot_loop (next_epoch next_version : u64)
  (rest : list StateSnapshotBackupMeta.t) : Outcome (u64 * Version) :=
  match rest with
  | [] => Ok (next_epoch, next_version)
  | backup :: rest' =>
      ensure (next_epoch =? StateSnapshotBackupMeta.epoch backup)
        (StateEpochNotContinuous next_epoch (StateSnapshotBackupMeta.epoch backup)) ;;;
      next_epoch' <- add_u64 (StateSnapshotBackupMeta.epoch backup) 1 ;;
      ensure (next_version =? StateSnapshotBackupMeta.version backup)
        (StateVersionNotContinuous next_version (StateSnapshotBackupMeta.version backup)) ;;;
      next_version' <- add_u64 (StateSnapshotBackupMeta.version backup) 1 ;;
      statesnapshot_loop next_epoch' next_version' rest'
  end.

Definition new_statesnapshot_backup_range (backup_metas : list StateSnapshotBackupMeta.t)
  : Outcome Metadata :=
  match backup_metas with
  | [] => Err EmptyMetadataVector
  | backup_meta :: rest =>
      let first_epoch := StateSnapshotBackupMeta.epoch backup_meta in
      next_epoch <- add_u64 (StateSnapshotBackupMeta.epoch backup_meta) 1 ;;
      let first_version := StateSnapshotBackupMeta.version backup_meta in
      next_version <- add_u64 (StateSnapshotBackupMeta.version backup_meta) 1 ;;
      nv <- statesnapshot_loop next_epoch next_version rest ;;
      last_epoch <- sub_u64 (fst nv) 1 ;;
      last_version <- sub_u64 (snd nv) 1 ;;
      Ok (StateSnapshotBackupRange
            (StateSnapshotBackupMetaRange.mk first_epoch last_epoch first_version
               last_version backup_metas))
  end.

(** The loop of [new_transaction_backup_range]. *)
Fixpoint transaction_loop (next_version : Version)
  (rest : list TransactionBackupMeta.t) : Outcome Version :=
  match rest with
  | [] => Ok next_version
  | backup :: rest' =>
      ensure (next_version =? TransactionBackupMeta.first_version backup)
        (TxnNotContinuous next_version (TransactionBackupMeta.first_version backup)) ;;;
      next_version' <- add_u64 (TransactionBackupMeta.last_version backup) 1 ;;
      transaction_loop next_version' rest'
  end.

Definition new_transaction_backup_range (backup_metas : list TransactionBackupMeta.t)
  : Outcome Metadata :=
  match backup_metas with
  | [] => Err EmptyMetadataVector
  | backup_meta :: rest =>
      let first_version := TransactionBackupMeta.first_version backup_meta in
      next_version <- add_u64 (TransactionBackupMeta.last_version backup_meta) 1 ;;
      next_version <- transaction_loop next_version rest ;;
      last_version <- sub_u64 next_version 1 ;;
      Ok (TransactionBackupRange
            (TransactionBackupMetaRange.mk first_version last_version backup_metas))
  end.

(** ** Naming *)

(** Modelled from the spec: the validation of [ShellSafeName] (its
    [TryFrom<String>] in the storage module, not part of this file's
    source).  The spec: a shell-safe name is safe for use as a file or
    command-line component, with no control characters, path separators or
    shell metacharacters. *)
Module ShellSafeName.
Record t := mk { name_str : string }.

Definition is_control (c : ascii) : bool :=
  let n := nat_of_ascii c in (Nat.ltb n 32 || Nat.eqb n 127)%bool.

Definition is_path_separator (c : ascii) : bool :=
  match c with "/"%char | "\"%char => true | _ => false end.

Definition shell_metacharacters : string :=
  " |&;()<>$`'*?[]#~=%!{}^".

(** The metacharacters above, and the double quote (code 34). *)
Definition is_shell_metacharacter (c : ascii) : bool :=
  (Nat.eqb (nat_of_ascii c) 34 || existsb (Ascii.eqb c) (list_ascii_of_string shell_metacharacters))%bool.

Definition safe_char (c : ascii) : bool :=
  negb (is_control c || is_path_separator c || is_shell_metacharacter c)%bool.

Definition try_from (s : string) : option t :=
  if forallb safe_char (list_ascii_of_string s) then Some (mk s) else None.
End ShellSafeName.

(** [format!("{}", n)] for an unsigned integer: its decimal digits. *)
Definition fmt_u64 (n : u64) : string :=
  NilEmpty.string_of_uint (N.to_uint n).

Local Open Scope string_scope.

(** The [format!]s of [Metadata::name], before [.try_into()]. *)
Definition name_format (m : Metadata) : string :=
  match m with
  | EpochEndingBackup e =>
      "epoch_ending_" ++ fmt_u64 (EpochEndingBackupMeta.first_epoch e) ++ "-"
        ++ fmt_u64 (EpochEndingBackupMeta.last_epoch e) ++ ".meta"
  | StateSnapshotBackup s =>
      "state_snapshot_ver_" ++ fmt_u64 (StateSnapshotBackupMeta.version s) ++ ".meta"
  | TransactionBackup t =>
      "transaction_" ++ fmt_u64 (TransactionBackupMeta.first_version t) ++ "-"
        ++ fmt_u64 (TransactionBackupMeta.last_version t) ++ ".meta"
  | EpochEndingBackupRange e =>
      "epoch_ending_compacted_" ++ fmt_u64 (EpochEndingBackupMetaRange.first_epoch e) ++ "-"
        ++ fmt_u64 (EpochEndingBackupMetaRange.last_epoch e) ++ ".meta"
  | StateSnapshotBackupRange e =>
      "state_snapshot_compacted_ver_" ++ fmt_u64 (StateSnapshotBackupMetaRange.first_version e)
        ++ "-" ++ fmt_u64 (StateSnapshotBackupMetaRange.last_version e) ++ ".meta"
  | TransactionBackupRange e =>
      "transaction_compacted_" ++ fmt_u64 (TransactionBackupMetaRange.first_version e) ++ "-"
        ++ fmt_u64 (TransactionBackupMetaRange.last_version e) ++ ".meta"
  | Identity _ => "identity.meta"
  end.

(** [Metadata::name]: the formatted string [.try_into().unwrap()]. *)
Definition name (m : Metadata) : Outcome ShellSafeName.t :=
  match ShellSafeName.try_from (name_format m) with
  | Some n => Ok n
  | None => Panic
  end.

Local Close Scope string_scope.

(** ** Well-formed records: every [u64] field at most [U64_MAX] *)

Definition wf_u64 (n : u64) : Prop := n <= U64_MAX.

Definition wf_epoch_ending (b : EpochEndingBackupMeta.t) : Prop :=
  wf_u64 (EpochEndingBackupMeta.first_epoch b) /\ wf_u64 (EpochEndingBackupMeta.last_epoch b) /\
  wf_u64 (EpochEndingBackupMeta.first_version b) /\ wf_u64 (EpochEndingBackupMeta.last_version b).

Definition wf_state_snapshot (b : StateSnapshotBackupMeta.t) : Prop :=
  wf_u64 (StateSnapshotBackupMeta.epoch b) /\ wf_u64 (StateSnapshotBackupMeta.version b).

Definition wf_transaction (b : TransactionBackupMeta.t) : Prop :=
  wf_u64 (TransactionBackupMeta.first_version b) /\ wf_u64 (TransactionBackupMeta.last_version b).

(** ** Continuity of a member sequence, as the spec's invariants state it *)

Fixpoint epoch_chain (l : list EpochEndingBackupMeta.t) : Prop :=
  match l with
  | a :: (b :: _) as l' =>
      EpochEndingBackupMeta.last_epoch a + 1 = EpochEndingBackupMeta.first_epoch b /\ epoch_chain l'
  | _ => True
  end.

Fixpoint snapshot_chain (l : list StateSnapshotBackupMeta.t) : Prop :=
  match l with
  | a :: (b :: _) as l' =>
      StateSnapshotBackupMeta.epoch a + 1 = StateSnapshotBackupMeta.epoch b /\
      StateSnapshotBackupMeta.version a + 1 = StateSnapshotBackupMeta.version b /\
      snapshot_chain l'
  | _ => True
  end.

Fixpoint transaction_chain (l : list TransactionBackupMeta.t) : Prop :=
  match l with
  | a :: (b :: _) as l' =>
      TransactionBackupMeta.last_version a + 1 = TransactionBackupMeta.first_version b /\
      transaction_chain l'
  | _ => True
  end.

(** ** Concrete runs *)

Definition ee (fe le fv lv : N) : EpochEndingBackupMeta.t :=
  EpochEndingBackupMeta.mk fe le fv lv "m"%string.
Definition ss (e v : N) : StateSnapshotBackupMeta.t :=
  StateSnapshotBackupMeta.mk e v "m"%string.
Definition tx (fv lv : N) : TransactionBackupMeta.t :=
  TransactionBackupMeta.mk fv lv "m"%string.

Example run_epoch_ok :
  new_epoch_ending_backup_range [ee 0 4 0 100; ee 5 9 101 200] =
  Ok (EpochEndingBackupRange (EpochEndingBackupMetaRange.mk 0 9 0 200 [ee 0 4 0 100; ee 5 9 101 200])).
Proof. reflexivity. Qed.

Example run_epoch_gap :
  new_epoch_ending_backup_range [ee 0 4 0 100; ee 6 9 101 200] = Err (EpochEndingNotContinuous 5 6).
Proof. reflexivity. Qed.

Example run_epoch_overlap :
  new_epoch_ending_backup_range [ee 0 4 0 100; ee 4 9 101 200] = Err (EpochEndingNotContinuous 5 4).
Proof. reflexivity. Qed.

Example run_snapshot_version :
  new_statesnapshot_backup_range [ss 10 1000; ss 11 1002] = Err (StateVersionNotContinuous 1001 1002).
Proof. reflexivity. Qed.

Example run_name :
  name (new_transaction_backup 10 20 "m"%string) =
  Ok (ShellSafeName.mk "transaction_10-20.meta"%string).
Proof. vm_compute. reflexivity. Qed.

(** ** Adjacency in a sequence *)

Section Chain.
Context {A : Type} (R : A -> A -> Prop).

(** [chain R l]: every adjacent pair of [l] is related by [R]. *)
Fixpoint chain (l : list A) : Prop :=
  match l with
  | a :: (b :: _) as l' => R a b /\ chain l'
  | _ => True
  end.
End Chain.

(** ** The derived orderings *)

(** [#[derive(Ord)]] on a struct compares the fields lexicographically, in
    declaration order; [lex c k] is [c.then(k)]. *)
Definition lex (c k : comparison) : comparison :=
  match c with Eq => k | _ => c end.

Definition cmp_epoch_ending_meta (a b : EpochEndingBackupMeta.t) : comparison :=
  lex (N.compare (EpochEndingBackupMeta.first_epoch a) (EpochEndingBackupMeta.first_epoch b))
  (lex (N.compare (EpochEndingBackupMeta.last_epoch a) (EpochEndingBackupMeta.last_epoch b))
  (lex (N.compare (EpochEndingBackupMeta.first_version a) (EpochEndingBackupMeta.first_version b))
  (lex (N.compare (EpochEndingBackupMeta.last_version a) (EpochEndingBackupMeta.last_version b))
       (String.compare (EpochEndingBackupMeta.manifest a) (EpochEndingBackupMeta.manifest b))))).

Definition cmp_state_snapshot_meta (a b : StateSnapshotBackupMeta.t) : comparison :=
  lex (N.compare (StateSnapshotBackupMeta.epoch a) (StateSnapshotBackupMeta.epoch b))
  (lex (N.compare (StateSnapshotBackupMeta.version a) (StateSnapshotBackupMeta.version b))
       (String.compare (StateSnapshotBackupMeta.manifest a) (StateSnapshotBackupMeta.manifest b))).

Definition cmp_transaction_meta (a b : TransactionBackupMeta.t) : comparison :=
  lex (N.compare (TransactionBackupMeta.first_version a) (TransactionBackupMeta.first_version b))
  (lex (N.compare (TransactionBackupMeta.last_version a) (TransactionBackupMeta.last_version b))
       (String.compare (TransactionBackupMeta.manifest a) (TransactionBackupMeta.manifest b))).

(** ** What a name is made of *)

(** The variant and the coordinates [Metadata::name] substitutes into its
    template. *)
Inductive NameKey :=
  | KEpochEnding (first_epoch last_epoch : u64)
  | KEpochEndingRange (first_epoch last_epoch : u64)
  | KStateSnapshot (version : Version)
  | KStateSnapshotRange (first_version last_version : Version)
  | KTransaction (first_version last_version : Version)
  | KTransactionRange (first_version last_version : Version)
  | KIdentity.

Definition name_key (m : Metadata) : NameKey :=
  match m with
  | EpochEndingBackup e =>
      KEpochEnding (EpochEndingBackupMeta.first_epoch e) (EpochEndingBackupMeta.last_epoch e)
  | EpochEndingBackupRange e =>
      KEpochEndingRange (EpochEndingBackupMetaRange.first_epoch e)
        (EpochEndingBackupMetaRange.last_epoch e)
  | StateSnapshotBackup s => KStateSnapshot (StateSnapshotBackupMeta.version s)
  | StateSnapshotBackupRange s =>
      KStateSnapshotRange (StateSnapshotBackupMetaRange.first_version s)
        (StateSnapshotBackupMetaRange.last_version s)
  | TransactionBackup t =>
      KTransaction (TransactionBackupMeta.first_version t) (TransactionBackupMeta.last_version t)
  | TransactionBackupRange t =>
      KTransactionRange (TransactionBackupMetaRange.first_version t)
        (TransactionBackupMetaRange.last_version t)
  | Identity _ => KIdentity
  end.

(** ** How much a member covers *)

(** Epochs of the closed range [[first_epoch, last_epoch]]. *)
Definition epoch_count (b : EpochEndingBackupMeta.t) : N :=
  EpochEndingBackupMeta.last_epoch b + 1 - EpochEndingBackupMeta.first_epoch b.

(** Versions of the closed range [[first_version, last_version]]. *)
Definition version_count (b : TransactionBackupMeta.t) : N :=
  TransactionBackupMeta.last_version b + 1 - TransactionBackupMeta.first_version b.

Definition sum_N {A} (f : A -> N) (l : list A) : N :=
  fold_right (fun x acc => f x + acc) 0 l.

(** ** Arithmetic and list facts *)

Lemma add_u64_lt (a : u64) : a < U64_MAX -> add_u64 a 1 = Ok (a + 1).
Proof.
  intros H. unfold add_u64.
  destruct (N.leb_spec (a + 1) U64_MAX); [reflexivity | lia].
Qed.

Lemma add_u64_max : add_u64 U64_MAX 1 = Panic.
Proof. reflexivity. Qed.

Lemma add_u64_ok (a c : u64) : add_u64 a 1 = Ok c -> c = a + 1 /\ a < U64_MAX.
Proof.
  unfold add_u64. destruct (N.leb_spec (a + 1) U64_MAX); intros E; inversion E; lia.
Qed.

Lemma sub_u64_succ (a : u64) : sub_u64 (a + 1) 1 = Ok a.
Proof.
  unfold sub_u64. destruct (N.leb_spec 1 (a + 1)); [f_equal; lia | lia].
Qed.

Lemma bind_assoc {A B C} (m : Outcome A) (f : A -> Outcome B) (g : B -> Outcome C) :
  bind (bind m f) g = bind m (fun x => bind (f x) g).
Proof. destruct m; reflexivity. Qed.

Lemma ensure_true (b : bool) (e : Error) : b = true -> ensure b e = Ok tt.
Proof. intros ->. reflexivity. Qed.

Lemma last_default {A} (x : A) (l : list A) (d1 d2 : A) :
  last (x :: l) d1 = last (x :: l) d2.
Proof.
  revert x. induction l as [|y l IH]; intros x; [reflexivity|].
  change (last (y :: l) d1 = last (y :: l) d2). apply IH.
Qed.

Lemma last_cons_cons {A} (x y : A) (l : list A) (d : A) :
  last (x :: y :: l) d = last (y :: l) d.
Proof. reflexivity. Qed.

Lemma last_snoc {A} (x : A) (l : list A) (a d : A) :
  last (x :: l ++ [a]) d = a.
Proof. rewrite app_comm_cons. apply last_last. Qed.


(** ** Epoch-ending compaction *)

Section EpochEnding.
Import EpochEndingBackupMeta.

Lemma epoch_chain_all_lt (l : list t) (x : t) :
  epoch_chain (x :: l) -> Forall wf_epoch_ending l ->
  last_epoch (last (x :: l) x) < U64_MAX ->
  Forall (fun m => last_epoch m < U64_MAX) (x :: l).
Proof.
  revert x. induction l as [|y l IH]; intros x Hc Hw Hz.
  - constructor; [exact Hz | constructor].
  - destruct Hc as [Hxy Hc]. inversion Hw as [|? ? Hwy Hw']; subst.
    destruct Hwy as [Hfy _].
    constructor.
    + unfold wf_u64 in Hfy. lia.
    + apply IH; [exact Hc | exact Hw' |].
      rewrite last_cons_cons in Hz. rewrite (last_default y l y x). exact Hz.
Qed.

Lemma epoch_ending_loop_app (mid post : list t) (prev : t) :
  epoch_chain (prev :: mid) -> Forall (fun m => last_epoch m < U64_MAX) mid ->
  epoch_ending_loop (last_epoch prev + 1) (last_version prev) (mid ++ post) =
  epoch_ending_loop (last_epoch (last (prev :: mid) prev) + 1)
    (last_version (last (prev :: mid) prev)) post.
Proof.
  revert prev. induction mid as [|b mid IH]; intros prev Hc Hl; [reflexivity|].
  destruct Hc as [Hpb Hc]. inversion Hl as [|? ? Hb Hl']; subst.
  simpl app. cbn [epoch_ending_loop].
  rewrite ensure_true by (apply N.eqb_eq; exact Hpb). cbn [bind].
  rewrite add_u64_lt by exact Hb. cbn [bind].
  rewrite IH by assumption.
  rewrite last_cons_cons, (last_default b mid b prev). reflexivity.
Qed.

Lemma epoch_ending_loop_ok_inv (rest : list t) (prev : t) (r : u64 * Version) :
  epoch_ending_loop (last_epoch prev + 1) (last_version prev) rest = Ok r ->
  epoch_chain (prev :: rest) /\ Forall (fun m => last_epoch m < U64_MAX) rest.
Proof.
  revert prev. induction rest as [|b rest IH]; intros prev E; [split; constructor|].
  cbn [epoch_ending_loop] in E. unfold ensure in E.
  destruct (N.eqb_spec (last_epoch prev + 1) (first_epoch b)) as [Hpb|]; [|discriminate].
  cbn [bind] in E.
  destruct (add_u64 (last_epoch b) 1) as [c| |] eqn:Ea; try discriminate.
  cbn [bind] in E. apply add_u64_ok in Ea as [-> Hb].
  destruct (IH b E) as [Hc Hl].
  split; [split; assumption | constructor; assumption].
Qed.
Lemma new_epoch_ending_backup_range_ok (first : t) (rest : list t) :
  Forall wf_epoch_ending rest -> epoch_chain (first :: rest) ->
  last_epoch (last (first :: rest) first) < U64_MAX ->
  new_epoch_ending_backup_range (first :: rest) =
  Ok (EpochEndingBackupRange
        (EpochEndingBackupMetaRange.mk (first_epoch first)
           (last_epoch (last (first :: rest) first)) (first_version first)
           (last_version (last (first :: rest) first)) (first :: rest))).
Proof.
  intros Hw Hc Hz.
  pose proof (epoch_chain_all_lt rest first Hc Hw Hz) as Hl.
  inversion Hl as [|? ? Hf Hl']; subst.
  unfold new_epoch_ending_backup_range.
  rewrite add_u64_lt by exact Hf. cbn [bind].
  rewrite <- (app_nil_r rest) at 1.
  rewrite epoch_ending_loop_app by assumption. cbn [epoch_ending_loop bind fst snd].
  rewrite sub_u64_succ. reflexivity.
Qed.

Lemma epoch_chain_snoc (x : t) (l : list t) (a : t) :
  epoch_chain (x :: l ++ [a]) ->
  epoch_chain (x :: l) /\ last_epoch (last (x :: l) x) + 1 = first_epoch a.
Proof.
  revert x. induction l as [|y l IH]; intros x Hc.
  - destruct Hc as [Hxa _]. split; [exact I | exact Hxa].
  - destruct Hc as [Hxy Hc]. destruct (IH y Hc) as [Hc' Hl].
    split; [split; assumption |].
    rewrite last_cons_cons, (last_default y l x y). exact Hl.
Qed.

Lemma epoch_chain_snoc_lt (x : t) (l : list t) (a : t) :
  epoch_chain (x :: l ++ [a]) -> Forall wf_epoch_ending (l ++ [a]) ->
  Forall (fun m => last_epoch m < U64_MAX) (x :: l).
Proof.
  intros Hc Hw. destruct (epoch_chain_snoc x l a Hc) as [Hc' Hl].
  apply Forall_app in Hw as [Hw Ha].
  apply epoch_chain_all_lt; [exact Hc' | exact Hw |].
  inversion Ha as [|? ? [Hfa _] _]; subst.
  unfold wf_u64 in Hfa. lia.
Qed.

(** Every member of a continuous prefix [pre ++ [a]] passes the loop:
    the run reaches the [last_epoch + 1] of [a]. *)
Lemma new_epoch_ending_backup_range_reach (pre : list t) (a : t) (post : list t) :
  Forall wf_epoch_ending (pre ++ [a]) -> epoch_chain (pre ++ [a]) ->
  new_epoch_ending_backup_range (pre ++ a :: post) =
  next_epoch <- add_u64 (last_epoch a) 1 ;;
  nv <- epoch_ending_loop next_epoch (last_version a) post ;;
  last_epoch' <- sub_u64 (fst nv) 1 ;;
  Ok (EpochEndingBackupRange
        (EpochEndingBackupMetaRange.mk (first_epoch (hd a pre)) last_epoch'
           (first_version (hd a pre)) (snd nv) (pre ++ a :: post))).
Proof.
  intros Hw Hc. destruct pre as [|p pre]; [reflexivity|].
  inversion Hw as [|? ? _ Hw']; subst.
  pose proof (epoch_chain_snoc_lt p pre a Hc Hw') as Hl.
  destruct (epoch_chain_snoc p pre a Hc) as [Hc' Hz].
  inversion Hl as [|? ? Hp Hl']; subst.
  unfold new_epoch_ending_backup_range. cbn [app].
  rewrite (add_u64_lt (last_epoch p)) by exact Hp. cbn [bind].
  rewrite epoch_ending_loop_app by assumption.
  cbn [epoch_ending_loop].
  rewrite ensure_true by (apply N.eqb_eq; exact Hz). cbn [bind].
  rewrite bind_assoc. reflexivity.
Qed.

Lemma new_epoch_ending_backup_range_ok_inv (l : list t) (r : Metadata) :
  new_epoch_ending_backup_range l = Ok r ->
  epoch_chain l /\ Forall (fun m => last_epoch m < U64_MAX) l.
Proof.
  destruct l as [|first rest]; [discriminate|].
  unfold new_epoch_ending_backup_range. intros E.
  destruct (add_u64 (last_epoch first) 1) as [c| |] eqn:Ea; try discriminate.
  apply add_u64_ok in Ea as [-> Hf]. cbn [bind] in E.
  destruct (epoch_ending_loop (last_epoch first + 1) (last_version first) rest)
    as [nv| |] eqn:El; try discriminate.
  destruct (epoch_ending_loop_ok_inv rest first nv El) as [Hc Hl].
  split; [exact Hc | constructor; assumption].
Qed.
End EpochEnding.

(** ** State-snapshot compaction *)

Section StateSnapshot.
Import StateSnapshotBackupMeta.

Definition below_max (m : t) : Prop := epoch m < U64_MAX /\ version m < U64_MAX.

Lemma snapshot_chain_all_lt (l : list t) (x : t) :
  snapshot_chain (x :: l) -> Forall wf_state_snapshot l ->
  below_max (last (x :: l) x) -> Forall below_max (x :: l).
Proof.
  revert x. induction l as [|y l IH]; intros x Hc Hw Hz.
  - constructor; [exact Hz | constructor].
  - destruct Hc as [He [Hv Hc]]. inversion Hw as [|? ? [Hey Hvy] Hw']; subst.
    unfold wf_u64 in Hey, Hvy.
    constructor.
    + split; lia.
    + apply IH; [exact Hc | exact Hw' |].
      rewrite last_cons_cons in Hz. rewrite (last_default y l y x). exact Hz.
Qed.

Lemma snapshot_chain_snoc (x : t) (l : list t) (a : t) :
  snapshot_chain (x :: l ++ [a]) ->
  snapshot_chain (x :: l) /\ epoch (last (x :: l) x) + 1 = epoch a /\
  version (last (x :: l) x) + 1 = version a.
Proof.
  revert x. induction l as [|y l IH]; intros x Hc.
  - destruct Hc as [He [Hv _]]. repeat split; assumption.
  - destruct Hc as [He [Hv Hc]]. destruct (IH y Hc) as [Hc' [He' Hv']].
    rewrite last_cons_cons, (last_default y l x y).
    repeat split; assumption.
Qed.

Lemma snapshot_chain_snoc_lt (x : t) (l : list t) (a : t) :
  snapshot_chain (x :: l ++ [a]) -> Forall wf_state_snapshot (l ++ [a]) ->
  Forall below_max (x :: l).
Proof.
  intros Hc Hw. destruct (snapshot_chain_snoc x l a Hc) as [Hc' [He Hv]].
  apply Forall_app in Hw as [Hw Ha].
  apply snapshot_chain_all_lt; [exact Hc' | exact Hw |].
  inversion Ha as [|? ? [Hea Hva] _]; subst.
  unfold wf_u64 in Hea, Hva. split; lia.
Qed.

Lemma statesnapshot_loop_app (mid post : list t) (prev : t) :
  snapshot_chain (prev :: mid) -> Forall below_max mid ->
  statesnapshot_loop (epoch prev + 1) (version prev + 1) (mid ++ post) =
  statesnapshot_loop (epoch (last (prev :: mid) prev) + 1)
    (version (last (prev :: mid) prev) + 1) post.
Proof.
  revert prev. induction mid as [|b mid IH]; intros prev Hc Hl; [reflexivity|].
  destruct Hc as [He [Hv Hc]]. inversion Hl as [|? ? [Heb Hvb] Hl']; subst.
  simpl app. cbn [statesnapshot_loop].
  rewrite (ensure_true (_ =? epoch b)) by (apply N.eqb_eq; exact He). cbn [bind].
  rewrite (add_u64_lt (epoch b)) by exact Heb. cbn [bind].
  rewrite (ensure_true (_ =? version b)) by (apply N.eqb_eq; exact Hv). cbn [bind].
  rewrite (add_u64_lt (version b)) by exact Hvb. cbn [bind].
  rewrite IH by assumption.
  rewrite last_cons_cons, (last_default b mid b prev). reflexivity.
Qed.

Lemma statesnapshot_loop_ok_inv (rest : list t) (prev : t) (r : u64 * Version) :
  statesnapshot_loop (epoch prev + 1) (version prev + 1) rest = Ok r ->
  snapshot_chain (prev :: rest) /\ Forall below_max rest.
Proof.
  revert prev. induction rest as [|b rest IH]; intros prev E; [split; constructor|].
  cbn [statesnapshot_loop] in E. unfold ensure at 1 in E.
  destruct (N.eqb_spec (epoch prev + 1) (epoch b)) as [He|]; [|discriminate].
  cbn [bind] in E.
  destruct (add_u64 (epoch b) 1) as [c| |] eqn:Ea; try discriminate.
  apply add_u64_ok in Ea as [-> Heb]. cbn [bind] in E. unfold ensure in E.
  destruct (N.eqb_spec (version prev + 1) (version b)) as [Hv|]; [|discriminate].
  cbn [bind] in E.
  destruct (add_u64 (version b) 1) as [c| |] eqn:Ev; try discriminate.
  apply add_u64_ok in Ev as [-> Hvb]. cbn [bind] in E.
  destruct (IH b E) as [Hc Hl].
  split; [repeat split; assumption | constructor; [split |]; assumption].
Qed.

Lemma new_statesnapshot_backup_range_ok (first : t) (rest : list t) :
  Forall wf_state_snapshot rest -> snapshot_chain (first :: rest) ->
  below_max (last (first :: rest) first) ->
  new_statesnapshot_backup_range (first :: rest) =
  Ok (StateSnapshotBackupRange
        (StateSnapshotBackupMetaRange.mk (epoch first)
           (epoch (last (first :: rest) first)) (version first)
           (version (last (first :: rest) first)) (first :: rest))).
Proof.
  intros Hw Hc Hz.
  pose proof (snapshot_chain_all_lt rest first Hc Hw Hz) as Hl.
  inversion Hl as [|? ? [Hfe Hfv] Hl']; subst.
  unfold new_statesnapshot_backup_range.
  rewrite (add_u64_lt (epoch first)) by exact Hfe. cbn [bind].
  rewrite (add_u64_lt (version first)) by exact Hfv. cbn [bind].
  rewrite <- (app_nil_r rest) at 1.
  rewrite statesnapshot_loop_app by assumption. cbn [statesnapshot_loop bind fst snd].
  rewrite !sub_u64_succ. reflexivity.
Qed.

(** Every member of a continuous prefix [pre ++ [a]] passes the loop. *)
Lemma new_statesnapshot_backup_range_reach (pre : list t) (a : t) (post : list t) :
  Forall wf_state_snapshot (pre ++ [a]) -> snapshot_chain (pre ++ [a]) ->
  new_statesnapshot_backup_range (pre ++ a :: post) =
  next_epoch <- add_u64 (epoch a) 1 ;;
  next_version <- add_u64 (version a) 1 ;;
  nv <- statesnapshot_loop next_epoch next_version post ;;
  last_epoch <- sub_u64 (fst nv) 1 ;;
  last_version <- sub_u64 (snd nv) 1 ;;
  Ok (StateSnapshotBackupRange
        (StateSnapshotBackupMetaRange.mk (epoch (hd a pre)) last_epoch
           (version (hd a pre)) last_version (pre ++ a :: post))).
Proof.
  intros Hw Hc. destruct pre as [|p pre]; [reflexivity|].
  inversion Hw as [|? ? _ Hw']; subst.
  pose proof (snapshot_chain_snoc_lt p pre a Hc Hw') as Hl.
  destruct (snapshot_chain_snoc p pre a Hc) as [Hc' [He Hv]].
  inversion Hl as [|? ? [Hpe Hpv] Hl']; subst.
  unfold new_statesnapshot_backup_range. cbn [app].
  rewrite (add_u64_lt (epoch p)) by exact Hpe. cbn [bind].
  rewrite (add_u64_lt (version p)) by exact Hpv. cbn [bind].
  rewrite statesnapshot_loop_app by assumption.
  cbn [statesnapshot_loop].
  rewrite (ensure_true (_ =? epoch a)) by (apply N.eqb_eq; exact He). cbn [bind].
  rewrite (ensure_true (_ =? version a)) by (apply N.eqb_eq; exact Hv). cbn [bind].
  destruct (add_u64 (epoch a) 1); cbn [bind]; [|reflexivity|reflexivity].
  destruct (add_u64 (version a) 1); reflexivity.
Qed.

Lemma new_statesnapshot_backup_range_ok_inv (l : list t) (r : Metadata) :
  new_statesnapshot_backup_range l = Ok r ->
  snapshot_chain l /\ Forall below_max l.
Proof.
  destruct l as [|first rest]; [discriminate|].
  unfold new_statesnapshot_backup_range. intros E.
  destruct (add_u64 (epoch first) 1) as [c| |] eqn:Ea; try discriminate.
  apply add_u64_ok in Ea as [-> Hfe]. cbn [bind] in E.
  destruct (add_u64 (version first) 1) as [c| |] eqn:Ev; try discriminate.
  apply add_u64_ok in Ev as [-> Hfv]. cbn [bind] in E.
  destruct (statesnapshot_loop (epoch first + 1) (version first + 1) rest)
    as [nv| |] eqn:El; try discriminate.
  destruct (statesnapshot_loop_ok_inv rest first nv El) as [Hc Hl].
  split; [exact Hc | constructor; [split |]; assumption].
Qed.
End StateSnapshot.

(** ** Transaction compaction *)

Section Transaction.
Import TransactionBackupMeta.

Lemma transaction_chain_all_lt (l : list t) (x : t) :
  transaction_chain (x :: l) -> Forall wf_transaction l ->
  last_version (last (x :: l) x) < U64_MAX ->
  Forall (fun m => last_version m < U64_MAX) (x :: l).
Proof.
  revert x. induction l as [|y l IH]; intros x Hc Hw Hz.
  - constructor; [exact Hz | constructor].
  - destruct Hc as [Hxy Hc]. inversion Hw as [|? ? [Hfy _] Hw']; subst.
    unfold wf_u64 in Hfy.
    constructor; [lia |].
    apply IH; [exact Hc | exact Hw' |].
    rewrite last_cons_cons in Hz. rewrite (last_default y l y x). exact Hz.
Qed.

Lemma transaction_chain_snoc (x : t) (l : list t) (a : t) :
  transaction_chain (x :: l ++ [a]) ->
  transaction_chain (x :: l) /\ last_version (last (x :: l) x) + 1 = first_version a.
Proof.
  revert x. induction l as [|y l IH]; intros x Hc.
  - destruct Hc as [Hxa _]. split; [exact I | exact Hxa].
  - destruct Hc as [Hxy Hc]. destruct (IH y Hc) as [Hc' Hl].
    split; [split; assumption |].
    rewrite last_cons_cons, (last_default y l x y). exact Hl.
Qed.

Lemma transaction_chain_snoc_lt (x : t) (l : list t) (a : t) :
  transaction_chain (x :: l ++ [a]) -> Forall wf_transaction (l ++ [a]) ->
  Forall (fun m => last_version m < U64_MAX) (x :: l).
Proof.
  intros Hc Hw. destruct (transaction_chain_snoc x l a Hc) as [Hc' Hl].
  apply Forall_app in Hw as [Hw Ha].
  apply transaction_chain_all_lt; [exact Hc' | exact Hw |].
  inversion Ha as [|? ? [Hfa _] _]; subst.
  unfold wf_u64 in Hfa. lia.
Qed.

Lemma transaction_loop_app (mid post : list t) (prev : t) :
  transaction_chain (prev :: mid) -> Forall (fun m => last_version m < U64_MAX) mid ->
  transaction_loop (last_version prev + 1) (mid ++ post) =
  transaction_loop (last_version (last (prev :: mid) prev) + 1) post.
Proof.
  revert prev. induction mid as [|b mid IH]; intros prev Hc Hl; [reflexivity|].
  destruct Hc as [Hpb Hc]. inversion Hl as [|? ? Hb Hl']; subst.
  simpl app. cbn [transaction_loop].
  rewrite ensure_true by (apply N.eqb_eq; exact Hpb). cbn [bind].
  rewrite add_u64_lt by exact Hb. cbn [bind].
  rewrite IH by assumption.
  rewrite last_cons_cons, (last_default b mid b prev). reflexivity.
Qed.

Lemma transaction_loop_ok_inv (rest : list t) (prev : t) (r : Version) :
  transaction_loop (last_version prev + 1) rest = Ok r ->
  transaction_chain (prev :: rest) /\ Forall (fun m => last_version m < U64_MAX) rest.
Proof.
  revert prev. induction rest as [|b rest IH]; intros prev E; [split; constructor|].
  cbn [transaction_loop] in E. unfold ensure in E.
  destruct (N.eqb_spec (last_version prev + 1) (first_version b)) as [Hpb|]; [|discriminate].
  cbn [bind] in E.
  destruct (add_u64 (last_version b) 1) as [c| |] eqn:Ea; try discriminate.
  cbn [bind] in E. apply add_u64_ok in Ea as [-> Hb].
  destruct (IH b E) as [Hc Hl].
  split; [split; assumption | constructor; assumption].
Qed.

Lemma new_transaction_backup_range_ok (first : t) (rest : list t) :
  Forall wf_transaction rest -> transaction_chain (first :: rest) ->
  last_version (last (first :: rest) first) < U64_MAX ->
  new_transaction_backup_range (first :: rest) =
  Ok (TransactionBackupRange
        (TransactionBackupMetaRange.mk (first_version first)
           (last_version (last (first :: rest) first)) (first :: rest))).
Proof.
  intros Hw Hc Hz.
  pose proof (transaction_chain_all_lt rest first Hc Hw Hz) as Hl.
  inversion Hl as [|? ? Hf Hl']; subst.
  unfold new_transaction_backup_range.
  rewrite add_u64_lt by exact Hf. cbn [bind].
  rewrite <- (app_nil_r rest) at 1.
  rewrite transaction_loop_app by assumption. cbn [transaction_loop bind].
  rewrite sub_u64_succ. reflexivity.
Qed.

(** Every member of a continuous prefix [pre ++ [a]] passes the loop. *)
Lemma new_transaction_backup_range_reach (pre : list t) (a : t) (post : list t) :
  Forall wf_transaction (pre ++ [a]) -> transaction_chain (pre ++ [a]) ->
  new_transaction_backup_range (pre ++ a :: post) =
  next_version <- add_u64 (last_version a) 1 ;;
  next_version <- transaction_loop next_version post ;;
  last_version' <- sub_u64 next_version 1 ;;
  Ok (TransactionBackupRange
        (TransactionBackupMetaRange.mk (first_version (hd a pre)) last_version'
           (pre ++ a :: post))).
Proof.
  intros Hw Hc. destruct pre as [|p pre]; [reflexivity|].
  inversion Hw as [|? ? _ Hw']; subst.
  pose proof (transaction_chain_snoc_lt p pre a Hc Hw') as Hl.
  destruct (transaction_chain_snoc p pre a Hc) as [Hc' Hz].
  inversion Hl as [|? ? Hp Hl']; subst.
  unfold new_transaction_backup_range. cbn [app].
  rewrite (add_u64_lt (last_version p)) by exact Hp. cbn [bind].
  rewrite transaction_loop_app by assumption.
  cbn [transaction_loop].
  rewrite ensure_true by (apply N.eqb_eq; exact Hz). cbn [bind].
  rewrite bind_assoc. reflexivity.
Qed.

Lemma new_transaction_backup_range_ok_inv (l : list t) (r : Metadata) :
  new_transaction_backup_range l = Ok r ->
  transaction_chain l /\ Forall (fun m => last_version m < U64_MAX) l.
Proof.
  destruct l as [|first rest]; [discriminate|].
  unfold new_transaction_backup_range. intros E.
  destruct (add_u64 (last_version first) 1) as [c| |] eqn:Ea; try discriminate.
  apply add_u64_ok in Ea as [-> Hf]. cbn [bind] in E.
  destruct (transaction_loop (last_version first + 1) rest)
    as [nv| |] eqn:El; try discriminate.
  destruct (transaction_loop_ok_inv rest first nv El) as [Hc Hl].
  split; [exact Hc | constructor; assumption].
Qed.
End Transaction.

(** ** Naming: the templates only use shell-safe characters *)

(** Characters the templates and decimal numbers are made of:
    [a-z], [0-9], [_], [-] and [.]. *)
Definition template_char (c : ascii) : bool :=
  let n := nat_of_ascii c in
  (Nat.leb 97 n && Nat.leb n 122) || (Nat.leb 48 n && Nat.leb n 57) ||
  Nat.eqb n 95 || Nat.eqb n 45 || Nat.eqb n 46.

Lemma template_char_safe (c : ascii) :
  template_char c = true -> ShellSafeName.safe_char c = true.
Proof.
  revert c. intros c.
  destruct c as [[] [] [] [] [] [] [] []]; vm_compute; first [reflexivity | discriminate].
Qed.

Lemma list_ascii_of_string_app (s1 s2 : string) :
  list_ascii_of_string (s1 ++ s2)%string =
  list_ascii_of_string s1 ++ list_ascii_of_string s2.
Proof.
  induction s1 as [|c s1 IH]; [reflexivity|]. cbn. rewrite IH. reflexivity.
Qed.

Lemma fmt_u64_chars (n : u64) :
  forallb template_char (list_ascii_of_string (fmt_u64 n)) = true.
Proof.
  unfold fmt_u64. generalize (N.to_uint n) as d.
  induction d as [|d IH|d IH|d IH|d IH|d IH|d IH|d IH|d IH|d IH|d IH];
    [reflexivity | cbn [NilEmpty.string_of_uint list_ascii_of_string forallb]; exact IH ..].
Qed.

Ltac template_chars :=
  repeat first
    [ rewrite list_ascii_of_string_app
    | rewrite forallb_app
    | rewrite fmt_u64_chars
    | reflexivity
    | apply andb_true_intro; split ].

Lemma name_format_chars (m : Metadata) :
  forallb template_char (list_ascii_of_string (name_format m)) = true.
Proof. destruct m; unfold name_format; template_chars. Qed.

Lemma name_format_safe (m : Metadata) :
  forallb ShellSafeName.safe_char (list_ascii_of_string (name_format m)) = true.
Proof.
  pose proof (name_format_chars m) as H.
  induction (list_ascii_of_string (name_format m)) as [|c l IH]; [reflexivity|].
  cbn in H |- *. apply andb_prop in H as [Hc Hl].
  rewrite (template_char_safe c Hc). exact (IH Hl).
Qed.

Lemma name_ok (m : Metadata) : name m = Ok (ShellSafeName.mk (name_format m)).
Proof.
  unfold name, ShellSafeName.try_from. rewrite name_format_safe. reflexivity.
Qed.

(** ** Where a compaction panics *)

Lemma split_last {A} (x : A) (l : list A) :
  x :: l = removelast (x :: l) ++ [last (x :: l) x].
Proof. apply app_removelast_last. discriminate. Qed.

Lemma epoch_ending_reach_panics (pre : list EpochEndingBackupMeta.t) a post :
  Forall wf_epoch_ending (pre ++ [a]) -> epoch_chain (pre ++ [a]) ->
  EpochEndingBackupMeta.last_epoch a = U64_MAX ->
  new_epoch_ending_backup_range (pre ++ a :: post) = Panic.
Proof.
  intros Hw Hc Ha. rewrite new_epoch_ending_backup_range_reach by assumption.
  rewrite Ha, add_u64_max. reflexivity.
Qed.

Lemma statesnapshot_reach_panics (pre : list StateSnapshotBackupMeta.t) a post :
  Forall wf_state_snapshot (pre ++ [a]) -> snapshot_chain (pre ++ [a]) ->
  StateSnapshotBackupMeta.epoch a = U64_MAX \/ StateSnapshotBackupMeta.version a = U64_MAX ->
  new_statesnapshot_backup_range (pre ++ a :: post) = Panic.
Proof.
  intros Hw Hc Ha. rewrite new_statesnapshot_backup_range_reach by assumption.
  destruct Ha as [Ha | Ha].
  - rewrite Ha, add_u64_max. reflexivity.
  - unfold add_u64 at 1.
    destruct (StateSnapshotBackupMeta.epoch a + 1 <=? U64_MAX); cbn [bind];
      [rewrite Ha, add_u64_max |]; reflexivity.
Qed.

Lemma statesnapshot_next_epoch_panics (pre : list StateSnapshotBackupMeta.t) a b post :
  Forall wf_state_snapshot (pre ++ [a]) -> snapshot_chain (pre ++ [a]) ->
  StateSnapshotBackupMeta.epoch a + 1 = StateSnapshotBackupMeta.epoch b ->
  StateSnapshotBackupMeta.epoch b = U64_MAX ->
  new_statesnapshot_backup_range (pre ++ a :: b :: post) = Panic.
Proof.
  intros Hw Hc Hab Hb. rewrite new_statesnapshot_backup_range_reach by assumption.
  rewrite (add_u64_lt (StateSnapshotBackupMeta.epoch a)) by lia. cbn [bind].
  unfold add_u64 at 1.
  destruct (StateSnapshotBackupMeta.version a + 1 <=? U64_MAX); cbn [bind]; [|reflexivity].
  cbn [statesnapshot_loop].
  rewrite (ensure_true (_ =? StateSnapshotBackupMeta.epoch b))
    by (apply N.eqb_eq; exact Hab). cbn [bind].
  rewrite Hb, add_u64_max. reflexivity.
Qed.

Lemma transaction_reach_panics (pre : list TransactionBackupMeta.t) a post :
  Forall wf_transaction (pre ++ [a]) -> transaction_chain (pre ++ [a]) ->
  TransactionBackupMeta.last_version a = U64_MAX ->
  new_transaction_backup_range (pre ++ a :: post) = Panic.
Proof.
  intros Hw Hc Ha. rewrite new_transaction_backup_range_reach by assumption.
  rewrite Ha, add_u64_max. reflexivity.
Qed.

(** * Properties of the specification *)

Ltac solve_wf :=
  repeat first
    [ apply Forall_nil | apply Forall_cons
    | progress unfold wf_epoch_ending, wf_state_snapshot, wf_transaction | split
    | unfold wf_u64; vm_compute; discriminate ].

(** ** C1 *)

(** C1 (as stated, refuted): a continuous sequence whose last member ends
    at [U64_MAX] does not compact; computing [last_version + 1] panics. *)
Lemma C1_counterexample :
  Forall wf_transaction [tx 0 U64_MAX] /\ transaction_chain [tx 0 U64_MAX] /\
  new_transaction_backup_range [tx 0 U64_MAX] = Panic.
Proof.
  split; [solve_wf | split; [exact I | reflexivity]].
Qed.

(** C1 (amended): a non-empty, continuous sequence of well-formed leaf
    records of one kind whose last member's ending bound(s) are below
    [U64_MAX] compacts into the range whose first bound(s) are the first
    member's, whose last bound(s) are the last member's, and whose
    [backup_metas] is the input sequence itself; when the last member's
    ending bound (for a snapshot: its epoch or its version) is [U64_MAX],
    computing that bound [+ 1] panics. *)
Theorem compaction_bounds_and_members :
  (forall (first : EpochEndingBackupMeta.t) (rest : list EpochEndingBackupMeta.t),
     Forall wf_epoch_ending (first :: rest) -> epoch_chain (first :: rest) ->
     (EpochEndingBackupMeta.last_epoch (last (first :: rest) first) < U64_MAX ->
      new_epoch_ending_backup_range (first :: rest) =
      Ok (EpochEndingBackupRange
            (EpochEndingBackupMetaRange.mk
               (EpochEndingBackupMeta.first_epoch first)
               (EpochEndingBackupMeta.last_epoch (last (first :: rest) first))
               (EpochEndingBackupMeta.first_version first)
               (EpochEndingBackupMeta.last_version (last (first :: rest) first))
               (first :: rest)))) /\
     (EpochEndingBackupMeta.last_epoch (last (first :: rest) first) = U64_MAX ->
      new_epoch_ending_backup_range (first :: rest) = Panic)) /\
  (forall (first : StateSnapshotBackupMeta.t) (rest : list StateSnapshotBackupMeta.t),
     Forall wf_state_snapshot (first :: rest) -> snapshot_chain (first :: rest) ->
     (StateSnapshotBackupMeta.epoch (last (first :: rest) first) < U64_MAX ->
      StateSnapshotBackupMeta.version (last (first :: rest) first) < U64_MAX ->
      new_statesnapshot_backup_range (first :: rest) =
      Ok (StateSnapshotBackupRange
            (StateSnapshotBackupMetaRange.mk
               (StateSnapshotBackupMeta.epoch first)
               (StateSnapshotBackupMeta.epoch (last (first :: rest) first))
               (StateSnapshotBackupMeta.version first)
               (StateSnapshotBackupMeta.version (last (first :: rest) first))
               (first :: rest)))) /\
     (StateSnapshotBackupMeta.epoch (last (first :: rest) first) = U64_MAX \/
      StateSnapshotBackupMeta.version (last (first :: rest) first) = U64_MAX ->
      new_statesnapshot_backup_range (first :: rest) = Panic)) /\
  (forall (first : TransactionBackupMeta.t) (rest : list TransactionBackupMeta.t),
     Forall wf_transaction (first :: rest) -> transaction_chain (first :: rest) ->
     (TransactionBackupMeta.last_version (last (first :: rest) first) < U64_MAX ->
      new_transaction_backup_range (first :: rest) =
      Ok (TransactionBackupRange
            (TransactionBackupMetaRange.mk
               (TransactionBackupMeta.first_version first)
               (TransactionBackupMeta.last_version (last (first :: rest) first))
               (first :: rest)))) /\
     (TransactionBackupMeta.last_version (last (first :: rest) first) = U64_MAX ->
      new_transaction_backup_range (first :: rest) = Panic)).
Proof.
  split; [|split].
  - intros first rest Hw Hc. split.
    + intros Hz. inversion Hw; subst.
      apply new_epoch_ending_backup_range_ok; assumption.
    + intros Hz. rewrite (split_last first rest) in Hw, Hc |- *.
      apply epoch_ending_reach_panics; assumption.
  - intros first rest Hw Hc. split.
    + intros He Hv. inversion Hw; subst.
      apply new_statesnapshot_backup_range_ok; [assumption | assumption | split; assumption].
    + intros Hz. rewrite (split_last first rest) in Hw, Hc |- *.
      apply statesnapshot_reach_panics; assumption.
  - intros first rest Hw Hc. split.
    + intros Hz. inversion Hw; subst.
      apply new_transaction_backup_range_ok; assumption.
    + intros Hz. rewrite (split_last first rest) in Hw, Hc |- *.
      apply transaction_reach_panics; assumption.
Qed.

Lemma compaction_bounds_and_members_witness :
  new_epoch_ending_backup_range [ee 0 4 0 100; ee 5 9 101 200] =
    Ok (EpochEndingBackupRange
          (EpochEndingBackupMetaRange.mk 0 9 0 200 [ee 0 4 0 100; ee 5 9 101 200])) /\
  new_epoch_ending_backup_range [ee 0 4 0 100; ee 5 U64_MAX 101 200] = Panic /\
  new_statesnapshot_backup_range [ss 10 1000; ss 11 1001] =
    Ok (StateSnapshotBackupRange
          (StateSnapshotBackupMetaRange.mk 10 11 1000 1001 [ss 10 1000; ss 11 1001])) /\
  new_statesnapshot_backup_range [ss 10 (U64_MAX - 1); ss 11 U64_MAX] = Panic /\
  new_transaction_backup_range [tx 7 7] =
    Ok (TransactionBackupRange (TransactionBackupMetaRange.mk 7 7 [tx 7 7])) /\
  new_transaction_backup_range [tx 0 99; tx 100 U64_MAX] = Panic.
Proof.
  destruct compaction_bounds_and_members as [He [Hs Ht]].
  split; [|split; [|split; [|split; [|split]]]].
  - refine (proj1 (He (ee 0 4 0 100) [ee 5 9 101 200] _ _) _);
      [solve_wf | vm_compute; split; [reflexivity | exact I]
      | vm_compute; reflexivity].
  - refine (proj2 (He (ee 0 4 0 100) [ee 5 U64_MAX 101 200] _ _) _);
      [solve_wf | vm_compute; split; [reflexivity | exact I]
      | reflexivity].
  - refine (proj1 (Hs (ss 10 1000) [ss 11 1001] _ _) _ _);
      [solve_wf
      | vm_compute; split; [reflexivity | split; [reflexivity | exact I]]
      | vm_compute; reflexivity | vm_compute; reflexivity].
  - refine (proj2 (Hs (ss 10 (U64_MAX - 1)) [ss 11 U64_MAX] _ _) _);
      [solve_wf
      | vm_compute; split; [reflexivity | split; [reflexivity | exact I]]
      | right; reflexivity].
  - refine (proj1 (Ht (tx 7 7) [] _ _) _);
      [solve_wf | exact I | vm_compute; reflexivity].
  - refine (proj2 (Ht (tx 0 99) [tx 100 U64_MAX] _ _) _);
      [solve_wf | vm_compute; split; [reflexivity | exact I] | reflexivity].
Defined.

(** ** C2 *)

(** C2 (as stated, refuted): the pair [last_epoch = U64_MAX], [first_epoch = 0]
    is not continuous, yet no discontinuity error is reported: computing the
    expected epoch [U64_MAX + 1] panics. *)
Lemma C2_counterexample :
  EpochEndingBackupMeta.last_epoch (ee 0 U64_MAX 0 0) + 1 <>
    EpochEndingBackupMeta.first_epoch (ee 0 0 0 0) /\
  new_epoch_ending_backup_range [ee 0 U64_MAX 0 0; ee 0 0 0 0] = Panic.
Proof. split; [vm_compute; discriminate | reflexivity]. Qed.

(** C2 (amended): epoch-ending compaction of [pre ++ a :: b :: post], where
    [pre ++ [a]] is continuous, fails at the first non-continuous pair [a],
    [b] with the error naming the expected epoch [a.last_epoch + 1] and the
    [first_epoch] of [b], for a gap as for an overlap, when [a.last_epoch]
    is below [U64_MAX]; when [a.last_epoch] is [U64_MAX], computing the
    expected epoch panics. *)
Theorem epoch_ending_first_discontinuity
  (pre : list EpochEndingBackupMeta.t) (a b : EpochEndingBackupMeta.t)
  (post : list EpochEndingBackupMeta.t) :
  Forall wf_epoch_ending (pre ++ [a]) -> epoch_chain (pre ++ [a]) ->
  (EpochEndingBackupMeta.last_epoch a < U64_MAX ->
   EpochEndingBackupMeta.last_epoch a + 1 <> EpochEndingBackupMeta.first_epoch b ->
   new_epoch_ending_backup_range (pre ++ a :: b :: post) =
   Err (EpochEndingNotContinuous (EpochEndingBackupMeta.last_epoch a + 1)
          (EpochEndingBackupMeta.first_epoch b))) /\
  (EpochEndingBackupMeta.last_epoch a = U64_MAX ->
   new_epoch_ending_backup_range (pre ++ a :: b :: post) = Panic).
Proof.
  intros Hw Hc. split.
  - intros Ha Hab.
    rewrite new_epoch_ending_backup_range_reach by assumption.
    rewrite (add_u64_lt _ Ha). cbn [bind epoch_ending_loop].
    unfold ensure. destruct (N.eqb_spec (EpochEndingBackupMeta.last_epoch a + 1)
                              (EpochEndingBackupMeta.first_epoch b)); [contradiction | reflexivity].
  - intros Ha. apply epoch_ending_reach_panics; assumption.
Qed.

Lemma epoch_ending_first_discontinuity_witness :
  new_epoch_ending_backup_range [ee 0 4 0 100; ee 6 9 101 200] = Err (EpochEndingNotContinuous 5 6) /\
  new_epoch_ending_backup_range [ee 0 4 0 100; ee 4 9 101 200] = Err (EpochEndingNotContinuous 5 4) /\
  new_epoch_ending_backup_range [ee 0 4 0 100; ee 5 U64_MAX 101 200; ee 0 9 201 300] = Panic.
Proof.
  split; [|split].
  - refine (proj1 (epoch_ending_first_discontinuity [] (ee 0 4 0 100) (ee 6 9 101 200) [] _ _) _ _);
      [solve_wf | exact I | vm_compute; reflexivity | vm_compute; discriminate].
  - refine (proj1 (epoch_ending_first_discontinuity [] (ee 0 4 0 100) (ee 4 9 101 200) [] _ _) _ _);
      [solve_wf | exact I | vm_compute; reflexivity | vm_compute; discriminate].
  - refine (proj2 (epoch_ending_first_discontinuity [ee 0 4 0 100] (ee 5 U64_MAX 101 200)
                     (ee 0 9 201 300) [] _ _) _);
      [solve_wf | vm_compute; split; [reflexivity | exact I] | reflexivity].
Defined.

(** ** C3 *)

(** C3 (as stated, refuted): at the pair [(U64_MAX - 1, 0)], [(U64_MAX, 5)] the
    epochs are continuous and only the versions are not, yet no version error
    is reported: computing [U64_MAX + 1] for the next epoch panics first. *)
Lemma C3_counterexample :
  StateSnapshotBackupMeta.epoch (ss (U64_MAX - 1) 0) + 1 =
    StateSnapshotBackupMeta.epoch (ss U64_MAX 5) /\
  StateSnapshotBackupMeta.version (ss (U64_MAX - 1) 0) + 1 <>
    StateSnapshotBackupMeta.version (ss U64_MAX 5) /\
  new_statesnapshot_backup_range [ss (U64_MAX - 1) 0; ss U64_MAX 5] = Panic.
Proof. split; [reflexivity | split; [vm_compute; discriminate | reflexivity]]. Qed.

(** C3 (amended): a snapshot compaction succeeds only on a sequence whose
    adjacent pairs advance by one in epoch and in version; at the first pair
    [a], [b] that does not, with [pre ++ [a]] continuous and no [+ 1] of the
    checks overflowing ([a]'s epoch and version below [U64_MAX], and [b]'s
    epoch too when the version is checked), the epoch error is reported when
    the epochs are not continuous (whatever the versions), and the version
    error when only the versions are not.  Otherwise the operation panics:
    on [a]'s [epoch + 1] or [version + 1] when that field is [U64_MAX], and
    on [b]'s [epoch + 1], computed between the two checks, when the epochs
    are continuous and [b]'s epoch is [U64_MAX]. *)
Theorem snapshot_lockstep_errors :
  (forall (l : list StateSnapshotBackupMeta.t) (r : Metadata),
     new_statesnapshot_backup_range l = Ok r -> snapshot_chain l) /\
  (forall (pre : list StateSnapshotBackupMeta.t) (a b : StateSnapshotBackupMeta.t)
          (post : list StateSnapshotBackupMeta.t),
     Forall wf_state_snapshot (pre ++ [a]) -> snapshot_chain (pre ++ [a]) ->
     StateSnapshotBackupMeta.epoch a < U64_MAX -> StateSnapshotBackupMeta.version a < U64_MAX ->
     (StateSnapshotBackupMeta.epoch a + 1 <> StateSnapshotBackupMeta.epoch b ->
      new_statesnapshot_backup_range (pre ++ a :: b :: post) =
      Err (StateEpochNotContinuous (StateSnapshotBackupMeta.epoch a + 1)
             (StateSnapshotBackupMeta.epoch b))) /\
     (StateSnapshotBackupMeta.epoch a + 1 = StateSnapshotBackupMeta.epoch b ->
      StateSnapshotBackupMeta.epoch b < U64_MAX ->
      StateSnapshotBackupMeta.version a + 1 <> StateSnapshotBackupMeta.version b ->
      new_statesnapshot_backup_range (pre ++ a :: b :: post) =
      Err (StateVersionNotContinuous (StateSnapshotBackupMeta.version a + 1)
             (StateSnapshotBackupMeta.version b)))) /\
  (forall (pre : list StateSnapshotBackupMeta.t) (a b : StateSnapshotBackupMeta.t)
          (post : list StateSnapshotBackupMeta.t),
     Forall wf_state_snapshot (pre ++ [a]) -> snapshot_chain (pre ++ [a]) ->
     (StateSnapshotBackupMeta.epoch a = U64_MAX \/ StateSnapshotBackupMeta.version a = U64_MAX \/
      (StateSnapshotBackupMeta.epoch a + 1 = StateSnapshotBackupMeta.epoch b /\
       StateSnapshotBackupMeta.epoch b = U64_MAX)) ->
     new_statesnapshot_backup_range (pre ++ a :: b :: post) = Panic).
Proof.
  split; [|split].
  - intros l r E. apply (new_statesnapshot_backup_range_ok_inv l r E).
  - intros pre a b post Hw Hc Hae Hav.
    rewrite new_statesnapshot_backup_range_reach by assumption.
    rewrite (add_u64_lt _ Hae), (add_u64_lt _ Hav). cbn [bind statesnapshot_loop].
    split.
    + intros Hab. unfold ensure at 1.
      destruct (N.eqb_spec (StateSnapshotBackupMeta.epoch a + 1)
                 (StateSnapshotBackupMeta.epoch b)); [contradiction | reflexivity].
    + intros Hab Hbe Hvb.
      rewrite (ensure_true (_ =? StateSnapshotBackupMeta.epoch b))
        by (apply N.eqb_eq; exact Hab). cbn [bind].
      rewrite (add_u64_lt _ Hbe). cbn [bind]. unfold ensure.
      destruct (N.eqb_spec (StateSnapshotBackupMeta.version a + 1)
                 (StateSnapshotBackupMeta.version b)); [contradiction | reflexivity].
  - intros pre a b post Hw Hc [Ha | [Ha | [Hab Hb]]].
    + apply statesnapshot_reach_panics; [assumption | assumption | left; exact Ha].
    + apply statesnapshot_reach_panics; [assumption | assumption | right; exact Ha].
    + apply statesnapshot_next_epoch_panics; assumption.
Qed.

Lemma snapshot_lockstep_errors_witness :
  snapshot_chain [ss 10 1000; ss 11 1001] /\
  new_statesnapshot_backup_range [ss 10 1000; ss 11 1002] =
    Err (StateVersionNotContinuous 1001 1002) /\
  new_statesnapshot_backup_range [ss 10 1000; ss 12 1003] =
    Err (StateEpochNotContinuous 11 12) /\
  new_statesnapshot_backup_range [ss 5 U64_MAX; ss 7 0] = Panic /\
  new_statesnapshot_backup_range [ss (U64_MAX - 1) 0; ss U64_MAX 5] = Panic.
Proof.
  destruct snapshot_lockstep_errors as [Hok [Herr Hpanic]].
  split; [|split; [|split; [|split]]].
  - refine (Hok [ss 10 1000; ss 11 1001] _ _). vm_compute. reflexivity.
  - refine (proj2 (Herr [] (ss 10 1000) (ss 11 1002) [] _ _ _ _) _ _ _);
      [solve_wf | exact I | vm_compute; reflexivity | vm_compute; reflexivity
      | reflexivity | vm_compute; reflexivity | vm_compute; discriminate].
  - refine (proj1 (Herr [] (ss 10 1000) (ss 12 1003) [] _ _ _ _) _);
      [solve_wf | exact I | vm_compute; reflexivity | vm_compute; reflexivity
      | vm_compute; discriminate].
  - refine (Hpanic [] (ss 5 U64_MAX) (ss 7 0) [] _ _ _);
      [solve_wf | exact I | right; left; reflexivity].
  - refine (Hpanic [] (ss (U64_MAX - 1) 0) (ss U64_MAX 5) [] _ _ _);
      [solve_wf | exact I | right; right; split; reflexivity].
Defined.

(** ** C4 *)

(** C4: compacting an empty sequence fails, for each of the three kinds,
    with the "compacting an empty metadata vector" error. *)
Theorem compaction_empty_rejected :
  new_epoch_ending_backup_range [] = Err EmptyMetadataVector /\
  new_statesnapshot_backup_range [] = Err EmptyMetadataVector /\
  new_transaction_backup_range [] = Err EmptyMetadataVector.
Proof. repeat split. Qed.

(** ** C5 *)

(** C5 (as stated, refuted): a single epoch-ending record ending at epoch
    [U64_MAX] is (vacuously) continuous but does not compact. *)
Lemma C5_counterexample :
  Forall wf_epoch_ending [ee 0 U64_MAX 7 3] /\ epoch_chain [ee 0 U64_MAX 7 3] /\
  new_epoch_ending_backup_range [ee 0 U64_MAX 7 3] = Panic.
Proof. split; [solve_wf | split; [exact I | reflexivity]]. Qed.

(** C5 (amended): epoch-ending compaction checks epoch continuity only: every
    non-empty, epoch-continuous sequence of well-formed records whose last
    member's [last_epoch] is below [U64_MAX] compacts, whatever the version
    fields, into a range whose [first_version] is the first member's and whose
    [last_version] is the last member's; when the last member's [last_epoch]
    is [U64_MAX], computing [last_epoch + 1] panics. *)
Theorem epoch_ending_epoch_continuity_only
  (first : EpochEndingBackupMeta.t) (rest : list EpochEndingBackupMeta.t) :
  Forall wf_epoch_ending (first :: rest) -> epoch_chain (first :: rest) ->
  (EpochEndingBackupMeta.last_epoch (last (first :: rest) first) < U64_MAX ->
   exists range,
     new_epoch_ending_backup_range (first :: rest) = Ok (EpochEndingBackupRange range) /\
     EpochEndingBackupMetaRange.first_version range = EpochEndingBackupMeta.first_version first /\
     EpochEndingBackupMetaRange.last_version range =
       EpochEndingBackupMeta.last_version (last (first :: rest) first)) /\
  (EpochEndingBackupMeta.last_epoch (last (first :: rest) first) = U64_MAX ->
   new_epoch_ending_backup_range (first :: rest) = Panic).
Proof.
  intros Hw Hc. split.
  - intros Hz. inversion Hw; subst.
    eexists. split; [apply new_epoch_ending_backup_range_ok; assumption | split; reflexivity].
  - intros Hz. rewrite (split_last first rest) in Hw, Hc |- *.
    apply epoch_ending_reach_panics; assumption.
Qed.

Lemma epoch_ending_epoch_continuity_only_witness :
  (exists range,
     new_epoch_ending_backup_range [ee 0 4 500 100; ee 5 9 3 7] = Ok (EpochEndingBackupRange range) /\
     EpochEndingBackupMetaRange.first_version range = 500 /\
     EpochEndingBackupMetaRange.last_version range = 7) /\
  new_epoch_ending_backup_range [ee 0 4 500 100; ee 5 U64_MAX 3 7] = Panic.
Proof.
  split.
  - refine (proj1 (epoch_ending_epoch_continuity_only (ee 0 4 500 100) [ee 5 9 3 7] _ _) _);
      [solve_wf | vm_compute; split; [reflexivity | exact I] | vm_compute; reflexivity].
  - refine (proj2 (epoch_ending_epoch_continuity_only (ee 0 4 500 100) [ee 5 U64_MAX 3 7] _ _) _);
      [solve_wf | vm_compute; split; [reflexivity | exact I] | reflexivity].
Defined.

(** ** C6 *)

(** C6: every [+ 1] a compaction computes on a value equal to [U64_MAX] makes
    the compaction panic: in the epoch-ending and transaction loops, the
    [last_* + 1] of any member the loop reaches; in the snapshot loop, the
    [epoch + 1] of any member whose epoch check passes and the [version + 1]
    of any member whose version check passes.  No range record is ever built
    from a member whose [+ 1] would have overflowed. *)
Theorem compaction_overflow_panics :
  (forall pre (a : EpochEndingBackupMeta.t) post,
     Forall wf_epoch_ending (pre ++ [a]) -> epoch_chain (pre ++ [a]) ->
     EpochEndingBackupMeta.last_epoch a = U64_MAX ->
     new_epoch_ending_backup_range (pre ++ a :: post) = Panic) /\
  (forall pre (a : StateSnapshotBackupMeta.t) post,
     Forall wf_state_snapshot (pre ++ [a]) -> snapshot_chain (pre ++ [a]) ->
     StateSnapshotBackupMeta.epoch a = U64_MAX \/ StateSnapshotBackupMeta.version a = U64_MAX ->
     new_statesnapshot_backup_range (pre ++ a :: post) = Panic) /\
  (forall pre (p a : StateSnapshotBackupMeta.t) post,
     Forall wf_state_snapshot (pre ++ [p]) -> snapshot_chain (pre ++ [p]) ->
     StateSnapshotBackupMeta.epoch p + 1 = StateSnapshotBackupMeta.epoch a ->
     StateSnapshotBackupMeta.epoch a = U64_MAX ->
     new_statesnapshot_backup_range (pre ++ p :: a :: post) = Panic) /\
  (forall pre (a : TransactionBackupMeta.t) post,
     Forall wf_transaction (pre ++ [a]) -> transaction_chain (pre ++ [a]) ->
     TransactionBackupMeta.last_version a = U64_MAX ->
     new_transaction_backup_range (pre ++ a :: post) = Panic) /\
  (forall l r, new_epoch_ending_backup_range l = Ok r ->
     Forall (fun m => EpochEndingBackupMeta.last_epoch m < U64_MAX) l) /\
  (forall l r, new_statesnapshot_backup_range l = Ok r ->
     Forall (fun m => StateSnapshotBackupMeta.epoch m < U64_MAX /\
                      StateSnapshotBackupMeta.version m < U64_MAX) l) /\
  (forall l r, new_transaction_backup_range l = Ok r ->
     Forall (fun m => TransactionBackupMeta.last_version m < U64_MAX) l).
Proof.
  split; [|split; [|split; [|split; [|split; [|split]]]]].
  - intros pre a post Hw Hc Ha.
    rewrite new_epoch_ending_backup_range_reach by assumption.
    rewrite Ha, add_u64_max. reflexivity.
  - intros pre a post Hw Hc Ha.
    rewrite new_statesnapshot_backup_range_reach by assumption.
    destruct Ha as [Ha | Ha].
    + rewrite Ha, add_u64_max. reflexivity.
    + unfold add_u64 at 1.
      destruct (StateSnapshotBackupMeta.epoch a + 1 <=? U64_MAX); cbn [bind];
        [rewrite Ha, add_u64_max |]; reflexivity.
  - intros pre p a post Hw Hc Hpa Ha.
    rewrite new_statesnapshot_backup_range_reach by assumption.
    rewrite (add_u64_lt (StateSnapshotBackupMeta.epoch p)) by lia. cbn [bind].
    unfold add_u64 at 1.
    destruct (StateSnapshotBackupMeta.version p + 1 <=? U64_MAX); cbn [bind]; [|reflexivity].
    cbn [statesnapshot_loop].
    rewrite (ensure_true (_ =? StateSnapshotBackupMeta.epoch a))
      by (apply N.eqb_eq; exact Hpa). cbn [bind].
    rewrite Ha, add_u64_max. reflexivity.
  - intros pre a post Hw Hc Ha.
    rewrite new_transaction_backup_range_reach by assumption.
    rewrite Ha, add_u64_max. reflexivity.
  - intros l r E. apply (new_epoch_ending_backup_range_ok_inv l r E).
  - intros l r E. apply (new_statesnapshot_backup_range_ok_inv l r E).
  - intros l r E. apply (new_transaction_backup_range_ok_inv l r E).
Qed.

Lemma compaction_overflow_panics_witness :
  new_epoch_ending_backup_range [ee 0 4 0 10; ee 5 U64_MAX 11 20] = Panic /\
  new_statesnapshot_backup_range [ss (U64_MAX - 1) 0; ss U64_MAX 5] = Panic /\
  new_transaction_backup_range [tx 0 U64_MAX] = Panic.
Proof.
  destruct compaction_overflow_panics as [He [_ [Hs2 [Ht _]]]].
  split; [|split].
  - refine (He [ee 0 4 0 10] (ee 5 U64_MAX 11 20) [] _ _ _);
      [solve_wf | vm_compute; split; [reflexivity | exact I] | reflexivity].
  - refine (Hs2 [] (ss (U64_MAX - 1) 0) (ss U64_MAX 5) [] _ _ _ _);
      [solve_wf | exact I | vm_compute; reflexivity | reflexivity].
  - refine (Ht [] (tx 0 U64_MAX) [] _ _ _); [solve_wf | exact I | reflexivity].
Defined.

(** ** C8 *)

Local Open Scope string_scope.

(** C8: [name] returns, for each variant, its fixed template with the
    decimal coordinates substituted, and [identity.meta] for an identity;
    so two leaf records of one kind that differ only in their manifest
    handle get the same name. *)
Theorem name_templates :
  (forall e, name (EpochEndingBackup e) = Ok (ShellSafeName.mk
     ("epoch_ending_" ++ fmt_u64 (EpochEndingBackupMeta.first_epoch e) ++ "-"
        ++ fmt_u64 (EpochEndingBackupMeta.last_epoch e) ++ ".meta"))) /\
  (forall e, name (EpochEndingBackupRange e) = Ok (ShellSafeName.mk
     ("epoch_ending_compacted_" ++ fmt_u64 (EpochEndingBackupMetaRange.first_epoch e) ++ "-"
        ++ fmt_u64 (EpochEndingBackupMetaRange.last_epoch e) ++ ".meta"))) /\
  (forall s, name (StateSnapshotBackup s) = Ok (ShellSafeName.mk
     ("state_snapshot_ver_" ++ fmt_u64 (StateSnapshotBackupMeta.version s) ++ ".meta"))) /\
  (forall s, name (StateSnapshotBackupRange s) = Ok (ShellSafeName.mk
     ("state_snapshot_compacted_ver_" ++ fmt_u64 (StateSnapshotBackupMetaRange.first_version s)
        ++ "-" ++ fmt_u64 (StateSnapshotBackupMetaRange.last_version s) ++ ".meta"))) /\
  (forall t, name (TransactionBackup t) = Ok (ShellSafeName.mk
     ("transaction_" ++ fmt_u64 (TransactionBackupMeta.first_version t) ++ "-"
        ++ fmt_u64 (TransactionBackupMeta.last_version t) ++ ".meta"))) /\
  (forall t, name (TransactionBackupRange t) = Ok (ShellSafeName.mk
     ("transaction_compacted_" ++ fmt_u64 (TransactionBackupMetaRange.first_version t) ++ "-"
        ++ fmt_u64 (TransactionBackupMetaRange.last_version t) ++ ".meta"))) /\
  (forall i, name (Identity i) = Ok (ShellSafeName.mk "identity.meta")) /\
  (forall fe le fv lv m1 m2,
     name (new_epoch_ending_backup fe le fv lv m1) = name (new_epoch_ending_backup fe le fv lv m2)) /\
  (forall e v m1 m2,
     name (new_state_snapshot_backup e v m1) = name (new_state_snapshot_backup e v m2)) /\
  (forall fv lv m1 m2,
     name (new_transaction_backup fv lv m1) = name (new_transaction_backup fv lv m2)).
Proof.
  repeat split; intros; rewrite ?name_ok; reflexivity.
Qed.

Example name_manifest_collision :
  name (new_transaction_backup 100 199 "a/manifest") =
  name (new_transaction_backup 100 199 "b/manifest") /\
  name (new_transaction_backup 100 199 "a/manifest") =
  Ok (ShellSafeName.mk "transaction_100-199.meta").
Proof. split; vm_compute; reflexivity. Qed.

Local Close Scope string_scope.

(** ** C9 *)

(** C9: every string the naming templates produce passes the shell-safe
    name check, so the [unwrap] of [name] never panics. *)
Theorem name_never_panics (m : Metadata) :
  ShellSafeName.try_from (name_format m) = Some (ShellSafeName.mk (name_format m)) /\
  name m <> Panic.
Proof.
  split.
  - unfold ShellSafeName.try_from. rewrite name_format_safe. reflexivity.
  - rewrite name_ok. discriminate.
Qed.

(** ** C10 *)

(** C10: neither the leaf constructor nor the compaction of a single record
    checks the record's own bound order: for [l < f], [new_transaction_backup
    f l m] builds the record, and compacting the one-record sequence yields a
    range with [first_version = f > l = last_version]; the same holds for an
    epoch-ending record with [first_epoch > last_epoch] (and any versions). *)
Theorem single_record_bounds_unchecked :
  (forall (f l : Version) (m : FileHandle),
     f <= U64_MAX -> l < f ->
     new_transaction_backup f l m = TransactionBackup (TransactionBackupMeta.mk f l m) /\
     new_transaction_backup_range [TransactionBackupMeta.mk f l m] =
     Ok (TransactionBackupRange
           (TransactionBackupMetaRange.mk f l [TransactionBackupMeta.mk f l m]))) /\
  (forall (fe le : u64) (fv lv : Version) (m : FileHandle),
     fe <= U64_MAX -> le < fe ->
     new_epoch_ending_backup fe le fv lv m =
       EpochEndingBackup (EpochEndingBackupMeta.mk fe le fv lv m) /\
     new_epoch_ending_backup_range [EpochEndingBackupMeta.mk fe le fv lv m] =
     Ok (EpochEndingBackupRange
           (EpochEndingBackupMetaRange.mk fe le fv lv [EpochEndingBackupMeta.mk fe le fv lv m]))).
Proof.
  split.
  - intros f l m Hf Hlf. split; [reflexivity|].
    unfold new_transaction_backup_range.
    rewrite add_u64_lt by (cbn; unfold U64_MAX in *; lia). cbn [bind transaction_loop].
    rewrite sub_u64_succ. reflexivity.
  - intros fe le fv lv m Hf Hlf. split; [reflexivity|].
    unfold new_epoch_ending_backup_range.
    rewrite add_u64_lt by (cbn; unfold U64_MAX in *; lia). cbn [bind epoch_ending_loop fst snd].
    rewrite sub_u64_succ. reflexivity.
Qed.

Lemma single_record_bounds_unchecked_witness :
  new_transaction_backup_range [TransactionBackupMeta.mk 10 3 "m"%string] =
    Ok (TransactionBackupRange
          (TransactionBackupMetaRange.mk 10 3 [TransactionBackupMeta.mk 10 3 "m"%string])) /\
  new_epoch_ending_backup_range [EpochEndingBackupMeta.mk 8 2 50 40 "m"%string] =
    Ok (EpochEndingBackupRange
          (EpochEndingBackupMetaRange.mk 8 2 50 40 [EpochEndingBackupMeta.mk 8 2 50 40 "m"%string])).
Proof.
  destruct single_record_bounds_unchecked as [Ht He]. split.
  - refine (proj2 (Ht 10 3 "m"%string _ _)); vm_compute; [discriminate | reflexivity].
  - refine (proj2 (He 8 2 50 40 "m"%string _ _)); vm_compute; [discriminate | reflexivity].
Defined.

(** * Further properties of the code *)

(** ** Chains *)

Lemma chain_app {A} (R : A -> A -> Prop) (x y : A) (l1 l2 : list A) :
  chain R (x :: l1 ++ y :: l2) <->
  chain R (x :: l1) /\ R (last (x :: l1) x) y /\ chain R (y :: l2).
Proof.
  revert x. induction l1 as [|z l1 IH]; intros x; cbn [app].
  - split; [intros [H1 H2]; repeat split; assumption | intros [_ [H1 H2]]; split; assumption].
  - change (chain R (x :: z :: l1 ++ y :: l2)) with (R x z /\ chain R (z :: l1 ++ y :: l2)).
    change (chain R (x :: z :: l1)) with (R x z /\ chain R (z :: l1)).
    rewrite IH, last_cons_cons, (last_default z l1 x z). tauto.
Qed.

Lemma chain_impl {A} (R S : A -> A -> Prop) (P : A -> Prop) (l : list A) :
  (forall a b, P a -> R a b -> S a b) -> Forall P l -> chain R l -> chain S l.
Proof.
  intros H. induction l as [|a l IH]; intros HP Hc; [exact I|].
  destruct l as [|b l]; [exact I|].
  inversion HP as [|? ? Ha HP']; subst. destruct Hc as [Hab Hc].
  split; [apply H; assumption | apply IH; assumption].
Qed.

Lemma Forall_last {A} (P : A -> Prop) (x : A) (l : list A) :
  Forall P (x :: l) -> P (last (x :: l) x).
Proof.
  revert x. induction l as [|y l IH]; intros x H; [inversion H; assumption|].
  rewrite last_cons_cons, (last_default y l x y). inversion H; subst. apply IH. assumption.
Qed.

Lemma last_app_cons {A} (x y : A) (l1 l2 : list A) (d : A) :
  last (x :: l1 ++ y :: l2) d = last (y :: l2) y.
Proof.
  revert x. induction l1 as [|z l1 IH]; intros x.
  - cbn [app]. rewrite last_cons_cons. apply last_default.
  - cbn [app]. rewrite last_cons_cons. apply IH.
Qed.

Lemma epoch_chain_chain (l : list EpochEndingBackupMeta.t) :
  epoch_chain l <->
  chain (fun a b => EpochEndingBackupMeta.last_epoch a + 1 = EpochEndingBackupMeta.first_epoch b) l.
Proof.
  induction l as [|a l IH]; [reflexivity|]. destruct l as [|b l]; [reflexivity|].
  cbn [epoch_chain chain]. cbn [epoch_chain chain] in IH. rewrite IH. reflexivity.
Qed.

Lemma snapshot_chain_chain (l : list StateSnapshotBackupMeta.t) :
  snapshot_chain l <->
  chain (fun a b => StateSnapshotBackupMeta.epoch a + 1 = StateSnapshotBackupMeta.epoch b /\
                    StateSnapshotBackupMeta.version a + 1 = StateSnapshotBackupMeta.version b) l.
Proof.
  induction l as [|a l IH]; [reflexivity|]. destruct l as [|b l]; [reflexivity|].
  cbn [snapshot_chain chain]. cbn [snapshot_chain chain] in IH. rewrite IH. tauto.
Qed.

Lemma transaction_chain_chain (l : list TransactionBackupMeta.t) :
  transaction_chain l <->
  chain (fun a b => TransactionBackupMeta.last_version a + 1 = TransactionBackupMeta.first_version b) l.
Proof.
  induction l as [|a l IH]; [reflexivity|]. destruct l as [|b l]; [reflexivity|].
  cbn [transaction_chain chain]. cbn [transaction_chain chain] in IH. rewrite IH. reflexivity.
Qed.

(** ** Epoch-ending compaction: when it succeeds, and how it composes *)

(** The epoch-ending compaction of a sequence of well-formed records succeeds
    exactly when the sequence is non-empty, epoch-continuous and its last
    member's [last_epoch] is below [U64_MAX]; the range is then built from the
    first and last members and holds the sequence. *)
Theorem epoch_ending_compaction_iff (l : list EpochEndingBackupMeta.t) (r : Metadata) :
  Forall wf_epoch_ending l ->
  new_epoch_ending_backup_range l = Ok r <->
  exists first rest,
    l = first :: rest /\ epoch_chain l /\
    EpochEndingBackupMeta.last_epoch (last l first) < U64_MAX /\
    r = EpochEndingBackupRange
          (EpochEndingBackupMetaRange.mk (EpochEndingBackupMeta.first_epoch first)
             (EpochEndingBackupMeta.last_epoch (last l first))
             (EpochEndingBackupMeta.first_version first)
             (EpochEndingBackupMeta.last_version (last l first)) l).
Proof.
  intros Hw. split.
  - intros E. destruct l as [|first rest]; [discriminate|].
    destruct (new_epoch_ending_backup_range_ok_inv _ _ E) as [Hc Hl].
    pose proof (Forall_last _ _ _ Hl) as Hz. inversion Hw; subst.
    rewrite new_epoch_ending_backup_range_ok in E by assumption.
    injection E as <-. exists first, rest. repeat split; assumption.
  - intros (first & rest & -> & Hc & Hz & ->). inversion Hw; subst.
    apply new_epoch_ending_backup_range_ok; assumption.
Qed.

Lemma epoch_ending_compaction_iff_witness :
  new_epoch_ending_backup_range [ee 0 4 0 100; ee 5 9 101 200] =
    Ok (EpochEndingBackupRange
          (EpochEndingBackupMetaRange.mk 0 9 0 200 [ee 0 4 0 100; ee 5 9 101 200])).
Proof.
  apply (epoch_ending_compaction_iff [ee 0 4 0 100; ee 5 9 101 200]); [solve_wf|].
  exists (ee 0 4 0 100), [ee 5 9 101 200].
  split; [reflexivity | split; [vm_compute; split; [reflexivity | exact I] | split]];
    vm_compute; reflexivity.
Defined.

(** Compaction composes: a sequence split into two non-empty parts compacts
    into a range exactly when each part compacts and the first part's range
    ends one epoch before the second part's begins; the range then spans
    from the first part's start to the second part's end. *)
Theorem epoch_ending_compaction_app (x1 x2 : EpochEndingBackupMeta.t)
  (l1 l2 : list EpochEndingBackupMeta.t) (R : EpochEndingBackupMetaRange.t) :
  Forall wf_epoch_ending (x1 :: l1 ++ x2 :: l2) ->
  new_epoch_ending_backup_range (x1 :: l1 ++ x2 :: l2) = Ok (EpochEndingBackupRange R) <->
  exists R1 R2,
    new_epoch_ending_backup_range (x1 :: l1) = Ok (EpochEndingBackupRange R1) /\
    new_epoch_ending_backup_range (x2 :: l2) = Ok (EpochEndingBackupRange R2) /\
    EpochEndingBackupMetaRange.last_epoch R1 + 1 = EpochEndingBackupMetaRange.first_epoch R2 /\
    R = EpochEndingBackupMetaRange.mk (EpochEndingBackupMetaRange.first_epoch R1)
          (EpochEndingBackupMetaRange.last_epoch R2) (EpochEndingBackupMetaRange.first_version R1)
          (EpochEndingBackupMetaRange.last_version R2) (x1 :: l1 ++ x2 :: l2).
Proof.
  intros Hw.
  assert (Hw1 : Forall wf_epoch_ending (x1 :: l1)).
  { rewrite app_comm_cons in Hw. apply Forall_app in Hw. apply Hw. }
  assert (Hw2 : Forall wf_epoch_ending (x2 :: l2)).
  { rewrite app_comm_cons in Hw. apply Forall_app in Hw. apply Hw. }
  rewrite (epoch_ending_compaction_iff _ _ Hw).
  setoid_rewrite (epoch_ending_compaction_iff _ _ Hw1).
  setoid_rewrite (epoch_ending_compaction_iff _ _ Hw2).
  setoid_rewrite epoch_chain_chain.
  split.
  - intros (first & rest & E & Hc & Hz & Er). injection E as <- <-.
    rewrite last_app_cons in Hz, Er.
    injection Er as ->. apply chain_app in Hc as [Hc1 [Hlink Hc2]].
    inversion Hw2 as [|? ? [Hf2 _] _]; subst. unfold wf_u64 in Hf2.
    eexists; eexists; split; [|split; [|split]].
    + exists x1, l1. split; [reflexivity|]. split; [assumption|]. split; [lia | reflexivity].
    + exists x2, l2. split; [reflexivity|]. split; [assumption|]. split; [assumption | reflexivity].
    + cbn. exact Hlink.
    + reflexivity.
  - intros (R1 & R2 & (f1 & r1 & E1 & Hc1 & Hz1 & Er1) & (f2 & r2 & E2 & Hc2 & Hz2 & Er2) & Hlink & ->).
    injection E1 as <- <-. injection E2 as <- <-.
    injection Er1 as ->. injection Er2 as ->. cbn in Hlink.
    exists x1, (l1 ++ x2 :: l2). split; [reflexivity|].
    rewrite last_app_cons. split; [|split; [exact Hz2 | reflexivity]].
    apply chain_app. repeat split; assumption.
Qed.

Lemma epoch_ending_compaction_app_witness :
  new_epoch_ending_backup_range ([ee 0 4 0 100] ++ [ee 5 9 101 200]) =
    Ok (EpochEndingBackupRange
          (EpochEndingBackupMetaRange.mk 0 9 0 200 [ee 0 4 0 100; ee 5 9 101 200])).
Proof.
  apply (epoch_ending_compaction_app (ee 0 4 0 100) (ee 5 9 101 200) [] []); [solve_wf|].
  exists (EpochEndingBackupMetaRange.mk 0 4 0 100 [ee 0 4 0 100]),
         (EpochEndingBackupMetaRange.mk 5 9 101 200 [ee 5 9 101 200]).
  split; [reflexivity | split; [reflexivity | split; reflexivity]].
Defined.

(** ** State-snapshot compaction: when it succeeds, and how it composes *)

(** The snapshot compaction of well-formed records succeeds exactly when the
    sequence is non-empty, advances by one in epoch and in version at each
    step, and its last member's epoch and version are below [U64_MAX]; the
    range then spans from the first member to the last. *)
Theorem statesnapshot_compaction_iff (l : list StateSnapshotBackupMeta.t) (r : Metadata) :
  Forall wf_state_snapshot l ->
  new_statesnapshot_backup_range l = Ok r <->
  exists first rest,
    l = first :: rest /\ snapshot_chain l /\
    StateSnapshotBackupMeta.epoch (last l first) < U64_MAX /\
    StateSnapshotBackupMeta.version (last l first) < U64_MAX /\
    r = StateSnapshotBackupRange
          (StateSnapshotBackupMetaRange.mk (StateSnapshotBackupMeta.epoch first)
             (StateSnapshotBackupMeta.epoch (last l first))
             (StateSnapshotBackupMeta.version first)
             (StateSnapshotBackupMeta.version (last l first)) l).
Proof.
  intros Hw. split.
  - intros E. destruct l as [|first rest]; [discriminate|].
    destruct (new_statesnapshot_backup_range_ok_inv _ _ E) as [Hc Hl].
    pose proof (Forall_last _ _ _ Hl) as [Hze Hzv]. inversion Hw; subst.
    rewrite new_statesnapshot_backup_range_ok in E by (try split; assumption).
    injection E as <-. exists first, rest. repeat split; assumption.
  - intros (first & rest & -> & Hc & Hze & Hzv & ->). inversion Hw; subst.
    apply new_statesnapshot_backup_range_ok; [assumption | assumption | split; assumption].
Qed.

Lemma statesnapshot_compaction_iff_witness :
  new_statesnapshot_backup_range [ss 10 1000; ss 11 1001] =
    Ok (StateSnapshotBackupRange
          (StateSnapshotBackupMetaRange.mk 10 11 1000 1001 [ss 10 1000; ss 11 1001])).
Proof.
  apply (statesnapshot_compaction_iff [ss 10 1000; ss 11 1001]); [solve_wf|].
  exists (ss 10 1000), [ss 11 1001].
  split; [reflexivity|].
  split; [vm_compute; split; [reflexivity | split; [reflexivity | exact I]]|].
  split; [vm_compute; reflexivity | split; [vm_compute; reflexivity | reflexivity]].
Defined.

(** Two non-empty parts compact together exactly when each compacts and the
    first part's range ends one epoch and one version before the second
    part's begins. *)
Theorem statesnapshot_compaction_app (x1 x2 : StateSnapshotBackupMeta.t)
  (l1 l2 : list StateSnapshotBackupMeta.t) (R : StateSnapshotBackupMetaRange.t) :
  Forall wf_state_snapshot (x1 :: l1 ++ x2 :: l2) ->
  new_statesnapshot_backup_range (x1 :: l1 ++ x2 :: l2) = Ok (StateSnapshotBackupRange R) <->
  exists R1 R2,
    new_statesnapshot_backup_range (x1 :: l1) = Ok (StateSnapshotBackupRange R1) /\
    new_statesnapshot_backup_range (x2 :: l2) = Ok (StateSnapshotBackupRange R2) /\
    StateSnapshotBackupMetaRange.last_epoch R1 + 1 = StateSnapshotBackupMetaRange.first_epoch R2 /\
    StateSnapshotBackupMetaRange.last_version R1 + 1 =
      StateSnapshotBackupMetaRange.first_version R2 /\
    R = StateSnapshotBackupMetaRange.mk (StateSnapshotBackupMetaRange.first_epoch R1)
          (StateSnapshotBackupMetaRange.last_epoch R2)
          (StateSnapshotBackupMetaRange.first_version R1)
          (StateSnapshotBackupMetaRange.last_version R2) (x1 :: l1 ++ x2 :: l2).
Proof.
  intros Hw.
  assert (Hw1 : Forall wf_state_snapshot (x1 :: l1)).
  { rewrite app_comm_cons in Hw. apply Forall_app in Hw. apply Hw. }
  assert (Hw2 : Forall wf_state_snapshot (x2 :: l2)).
  { rewrite app_comm_cons in Hw. apply Forall_app in Hw. apply Hw. }
  rewrite (statesnapshot_compaction_iff _ _ Hw).
  setoid_rewrite (statesnapshot_compaction_iff _ _ Hw1).
  setoid_rewrite (statesnapshot_compaction_iff _ _ Hw2).
  setoid_rewrite snapshot_chain_chain.
  split.
  - intros (first & rest & E & Hc & Hze & Hzv & Er). injection E as <- <-.
    rewrite last_app_cons in Hze, Hzv, Er.
    injection Er as ->. apply chain_app in Hc as [Hc1 [[Hle Hlv] Hc2]].
    inversion Hw2 as [|? ? [He2 Hv2] _]; subst. unfold wf_u64 in He2, Hv2.
    eexists; eexists; split; [|split; [|split; [|split]]].
    + exists x1, l1. split; [reflexivity|]. split; [assumption|].
      split; [lia | split; [lia | reflexivity]].
    + exists x2, l2. split; [reflexivity|]. split; [assumption|].
      split; [assumption | split; [assumption | reflexivity]].
    + cbn. exact Hle.
    + cbn. exact Hlv.
    + reflexivity.
  - intros (R1 & R2 & (f1 & r1 & E1 & Hc1 & _ & _ & Er1) & (f2 & r2 & E2 & Hc2 & Hze & Hzv & Er2)
            & Hle & Hlv & ->).
    injection E1 as <- <-. injection E2 as <- <-.
    injection Er1 as ->. injection Er2 as ->. cbn in Hle, Hlv.
    exists x1, (l1 ++ x2 :: l2). split; [reflexivity|].
    rewrite last_app_cons. split; [|split; [exact Hze | split; [exact Hzv | reflexivity]]].
    apply chain_app. repeat split; assumption.
Qed.

Lemma statesnapshot_compaction_app_witness :
  new_statesnapshot_backup_range ([ss 10 1000] ++ [ss 11 1001; ss 12 1002]) =
    Ok (StateSnapshotBackupRange
          (StateSnapshotBackupMetaRange.mk 10 12 1000 1002 [ss 10 1000; ss 11 1001; ss 12 1002])).
Proof.
  apply (statesnapshot_compaction_app (ss 10 1000) (ss 11 1001) [] [ss 12 1002]); [solve_wf|].
  exists (StateSnapshotBackupMetaRange.mk 10 10 1000 1000 [ss 10 1000]),
         (StateSnapshotBackupMetaRange.mk 11 12 1001 1002 [ss 11 1001; ss 12 1002]).
  split; [reflexivity | split; [reflexivity | split; [reflexivity | split; reflexivity]]].
Defined.

(** ** Transaction compaction: errors, when it succeeds, and how it composes *)

(** At the first pair [a], [b] of a transaction sequence whose versions are
    not adjacent, with [pre ++ [a]] continuous and [a.last_version + 1] not
    overflowing, compaction fails with the error naming the expected version
    [a.last_version + 1] and [b]'s [first_version]. *)
Theorem transaction_first_discontinuity
  (pre : list TransactionBackupMeta.t) (a b : TransactionBackupMeta.t)
  (post : list TransactionBackupMeta.t) :
  Forall wf_transaction (pre ++ [a]) -> transaction_chain (pre ++ [a]) ->
  TransactionBackupMeta.last_version a < U64_MAX ->
  TransactionBackupMeta.last_version a + 1 <> TransactionBackupMeta.first_version b ->
  new_transaction_backup_range (pre ++ a :: b :: post) =
  Err (TxnNotContinuous (TransactionBackupMeta.last_version a + 1)
         (TransactionBackupMeta.first_version b)).
Proof.
  intros Hw Hc Ha Hab.
  rewrite new_transaction_backup_range_reach by assumption.
  rewrite (add_u64_lt _ Ha). cbn [bind transaction_loop].
  unfold ensure. destruct (N.eqb_spec (TransactionBackupMeta.last_version a + 1)
                            (TransactionBackupMeta.first_version b)); [contradiction | reflexivity].
Qed.

Lemma transaction_first_discontinuity_witness :
  new_transaction_backup_range [tx 0 99; tx 100 199; tx 150 299] = Err (TxnNotContinuous 200 150).
Proof.
  refine (transaction_first_discontinuity [tx 0 99] (tx 100 199) (tx 150 299) [] _ _ _ _);
    [solve_wf | vm_compute; split; [reflexivity | exact I] | vm_compute; reflexivity
    | vm_compute; discriminate].
Defined.

(** The transaction compaction of well-formed records succeeds exactly when
    the sequence is non-empty, version-adjacent and its last member's
    [last_version] is below [U64_MAX]. *)
Theorem transaction_compaction_iff (l : list TransactionBackupMeta.t) (r : Metadata) :
  Forall wf_transaction l ->
  new_transaction_backup_range l = Ok r <->
  exists first rest,
    l = first :: rest /\ transaction_chain l /\
    TransactionBackupMeta.last_version (last l first) < U64_MAX /\
    r = TransactionBackupRange
          (TransactionBackupMetaRange.mk (TransactionBackupMeta.first_version first)
             (TransactionBackupMeta.last_version (last l first)) l).
Proof.
  intros Hw. split.
  - intros E. destruct l as [|first rest]; [discriminate|].
    destruct (new_transaction_backup_range_ok_inv _ _ E) as [Hc Hl].
    pose proof (Forall_last _ _ _ Hl) as Hz. inversion Hw; subst.
    rewrite new_transaction_backup_range_ok in E by assumption.
    injection E as <-. exists first, rest. repeat split; assumption.
  - intros (first & rest & -> & Hc & Hz & ->). inversion Hw; subst.
    apply new_transaction_backup_range_ok; assumption.
Qed.

Lemma transaction_compaction_iff_witness :
  new_transaction_backup_range [tx 0 99; tx 100 199] =
    Ok (TransactionBackupRange (TransactionBackupMetaRange.mk 0 199 [tx 0 99; tx 100 199])).
Proof.
  apply (transaction_compaction_iff [tx 0 99; tx 100 199]); [solve_wf|].
  exists (tx 0 99), [tx 100 199].
  split; [reflexivity | split; [vm_compute; split; [reflexivity | exact I] | split]];
    vm_compute; reflexivity.
Defined.

(** Two non-empty parts compact together exactly when each compacts and the
    first part's range ends one version before the second part's begins. *)
Theorem transaction_compaction_app (x1 x2 : TransactionBackupMeta.t)
  (l1 l2 : list TransactionBackupMeta.t) (R : TransactionBackupMetaRange.t) :
  Forall wf_transaction (x1 :: l1 ++ x2 :: l2) ->
  new_transaction_backup_range (x1 :: l1 ++ x2 :: l2) = Ok (TransactionBackupRange R) <->
  exists R1 R2,
    new_transaction_backup_range (x1 :: l1) = Ok (TransactionBackupRange R1) /\
    new_transaction_backup_range (x2 :: l2) = Ok (TransactionBackupRange R2) /\
    TransactionBackupMetaRange.last_version R1 + 1 = TransactionBackupMetaRange.first_version R2 /\
    R = TransactionBackupMetaRange.mk (TransactionBackupMetaRange.first_version R1)
          (TransactionBackupMetaRange.last_version R2) (x1 :: l1 ++ x2 :: l2).
Proof.
  intros Hw.
  assert (Hw1 : Forall wf_transaction (x1 :: l1)).
  { rewrite app_comm_cons in Hw. apply Forall_app in Hw. apply Hw. }
  assert (Hw2 : Forall wf_transaction (x2 :: l2)).
  { rewrite app_comm_cons in Hw. apply Forall_app in Hw. apply Hw. }
  rewrite (transaction_compaction_iff _ _ Hw).
  setoid_rewrite (transaction_compaction_iff _ _ Hw1).
  setoid_rewrite (transaction_compaction_iff _ _ Hw2).
  setoid_rewrite transaction_chain_chain.
  split.
  - intros (first & rest & E & Hc & Hz & Er). injection E as <- <-.
    rewrite last_app_cons in Hz, Er.
    injection Er as ->. apply chain_app in Hc as [Hc1 [Hlink Hc2]].
    inversion Hw2 as [|? ? [Hf2 _] _]; subst. unfold wf_u64 in Hf2.
    eexists; eexists; split; [|split; [|split]].
    + exists x1, l1. split; [reflexivity|]. split; [assumption|]. split; [lia | reflexivity].
    + exists x2, l2. split; [reflexivity|]. split; [assumption|]. split; [assumption | reflexivity].
    + cbn. exact Hlink.
    + reflexivity.
  - intros (R1 & R2 & (f1 & r1 & E1 & Hc1 & Hz1 & Er1) & (f2 & r2 & E2 & Hc2 & Hz2 & Er2) & Hlink & ->).
    injection E1 as <- <-. injection E2 as <- <-.
    injection Er1 as ->. injection Er2 as ->. cbn in Hlink.
    exists x1, (l1 ++ x2 :: l2). split; [reflexivity|].
    rewrite last_app_cons. split; [|split; [exact Hz2 | reflexivity]].
    apply chain_app. repeat split; assumption.
Qed.

Lemma transaction_compaction_app_witness :
  new_transaction_backup_range ([tx 0 99] ++ [tx 100 199]) =
    Ok (TransactionBackupRange (TransactionBackupMetaRange.mk 0 199 [tx 0 99; tx 100 199])).
Proof.
  apply (transaction_compaction_app (tx 0 99) (tx 100 199) [] []); [solve_wf|].
  exists (TransactionBackupMetaRange.mk 0 99 [tx 0 99]),
         (TransactionBackupMetaRange.mk 100 199 [tx 100 199]).
  split; [reflexivity | split; [reflexivity | split; reflexivity]].
Defined.

(** ** Names: different keys, different names *)

Definition is_digit (c : ascii) : bool :=
  Nat.leb 48 (nat_of_ascii c) && Nat.leb (nat_of_ascii c) 57.

Lemma fmt_u64_inj (a b : u64) : fmt_u64 a = fmt_u64 b -> a = b.
Proof.
  unfold fmt_u64. intros H.
  apply (f_equal NilEmpty.uint_of_string) in H. rewrite !NilEmpty.usu in H.
  injection H as H. apply (f_equal N.of_uint) in H.
  rewrite !DecimalN.Unsigned.of_to in H. exact H.
Qed.

Lemma fmt_u64_digits (n : u64) :
  forallb is_digit (list_ascii_of_string (fmt_u64 n)) = true.
Proof.
  unfold fmt_u64. generalize (N.to_uint n) as d.
  induction d as [|d IH|d IH|d IH|d IH|d IH|d IH|d IH|d IH|d IH|d IH];
    [reflexivity | cbn [NilEmpty.string_of_uint list_ascii_of_string forallb]; exact IH ..].
Qed.

Lemma fmt_u64_cons (n : u64) : exists c s, fmt_u64 n = String c s.
Proof.
  unfold fmt_u64. destruct n as [|p]; [eexists; eexists; reflexivity|].
  cbn [N.to_uint]. pose proof (DecimalPos.Unsigned.to_uint_nonnil p) as Hn.
  destruct (Pos.to_uint p); [contradiction | eexists; eexists; reflexivity ..].
Qed.

Lemma string_cons_inj (a b : ascii) (s t : string) :
  String a s = String b t -> a = b /\ s = t.
Proof. intros H. injection H as -> ->. split; reflexivity. Qed.

(** A decimal number never starts with a non-digit. *)
Lemma fmt_u64_head_not (n : u64) (t u : string) (c : ascii) :
  (fmt_u64 n ++ t)%string = String c u -> is_digit c = false -> False.
Proof.
  intros H Hc. pose proof (fmt_u64_digits n) as Hd.
  destruct (fmt_u64_cons n) as (d & s & E). rewrite E in H, Hd.
  cbn in H, Hd. apply string_cons_inj in H as [-> _].
  rewrite Hc in Hd. discriminate.
Qed.

Lemma digits_sep (c : ascii) (s1 s2 t1 t2 : string) :
  is_digit c = false ->
  forallb is_digit (list_ascii_of_string s1) = true ->
  forallb is_digit (list_ascii_of_string s2) = true ->
  (s1 ++ String c t1)%string = (s2 ++ String c t2)%string -> s1 = s2 /\ t1 = t2.
Proof.
  intros Hc. revert s2. induction s1 as [|a s1 IH]; intros s2 H1 H2 H;
    destruct s2 as [|b s2]; cbn in H, H1, H2.
  - apply string_cons_inj in H as [_ ->]. split; reflexivity.
  - apply string_cons_inj in H as [-> _]. rewrite Hc in H2. discriminate.
  - apply string_cons_inj in H as [<- _]. rewrite Hc in H1. discriminate.
  - apply string_cons_inj in H as [-> H]. apply andb_prop in H1 as [_ H1].
    apply andb_prop in H2 as [_ H2]. destruct (IH s2 H1 H2 H) as [-> ->].
    split; reflexivity.
Qed.

(** A decimal number followed by a non-digit [c] is read back unambiguously. *)
Lemma fmt_u64_sep (c : ascii) (n1 n2 : u64) (t1 t2 : string) :
  (fmt_u64 n1 ++ String c t1)%string = (fmt_u64 n2 ++ String c t2)%string ->
  is_digit c = false ->
  n1 = n2 /\ t1 = t2.
Proof.
  intros H Hc.
  destruct (digits_sep c _ _ _ _ Hc (fmt_u64_digits n1) (fmt_u64_digits n2) H) as [E ->].
  split; [apply fmt_u64_inj; exact E | reflexivity].
Qed.

Ltac peel H :=
  repeat match type of H with
  | String ?a ?s = String ?b ?t =>
      let Ea := fresh "Ea" in let H' := fresh "H" in
      destruct (string_cons_inj a b s t H) as [Ea H']; clear H; rename H' into H;
      first [discriminate Ea | clear Ea]
  end.

Ltac name_key_of_format H :=
  cbn [String.append] in H; peel H;
  first
    [ reflexivity
    | exfalso; eapply fmt_u64_head_not; [exact H | reflexivity]
    | exfalso; eapply fmt_u64_head_not; [exact (eq_sym H) | reflexivity]
    | let E1 := fresh "E" in let E2 := fresh "E" in let H' := fresh "H" in
      destruct (fmt_u64_sep _ _ _ _ _ H eq_refl) as [E1 H'];
      first
        [ destruct (fmt_u64_sep _ _ _ _ _ H' eq_refl) as [E2 _]; rewrite E1, E2; reflexivity
        | rewrite E1; reflexivity ] ].

Lemma name_format_key (m1 m2 : Metadata) :
  name_format m1 = name_format m2 -> name_key m1 = name_key m2.
Proof.
  destruct m1, m2; unfold name_format; cbn [name_key]; intros H; name_key_of_format H.
Qed.

(** Two records get the same name exactly when they are of the same variant
    with the same coordinates in the name ([first_epoch]/[last_epoch] for
    epoch-ending records and ranges, [version] for a snapshot,
    [first_version]/[last_version] for snapshot ranges and transaction records
    and ranges); any two identity records share [identity.meta]. *)
Theorem name_eq_iff_key_eq (m1 m2 : Metadata) :
  name m1 = name m2 <-> name_key m1 = name_key m2.
Proof.
  split.
  - rewrite !name_ok. intros H. injection H as H. apply name_format_key. exact H.
  - destruct m1, m2; cbn [name_key]; intros Hk; inversion Hk;
      rewrite !name_ok; unfold name_format; congruence.
Qed.

(** ** Compacted members are sorted by the derived ordering *)

(** The members of every successful compaction are strictly increasing in
    the ordering [#[derive(Ord)]] gives the leaf structs (for epoch-ending
    and transaction records, provided each member's own first bound is at
    most its last). *)
Theorem compacted_members_sorted :
  (forall (l : list EpochEndingBackupMeta.t) r,
     new_epoch_ending_backup_range l = Ok r ->
     Forall (fun m => EpochEndingBackupMeta.first_epoch m <= EpochEndingBackupMeta.last_epoch m) l ->
     chain (fun a b => cmp_epoch_ending_meta a b = Lt) l) /\
  (forall (l : list StateSnapshotBackupMeta.t) r,
     new_statesnapshot_backup_range l = Ok r ->
     chain (fun a b => cmp_state_snapshot_meta a b = Lt) l) /\
  (forall (l : list TransactionBackupMeta.t) r,
     new_transaction_backup_range l = Ok r ->
     Forall (fun m => TransactionBackupMeta.first_version m <= TransactionBackupMeta.last_version m) l ->
     chain (fun a b => cmp_transaction_meta a b = Lt) l).
Proof.
  split; [|split].
  - intros l r E Hle. destruct (new_epoch_ending_backup_range_ok_inv l r E) as [Hc _].
    apply epoch_chain_chain in Hc. revert Hle Hc. apply chain_impl.
    intros a b Ha Hab. unfold cmp_epoch_ending_meta, lex.
    replace (N.compare _ _) with Lt by (symmetry; apply N.compare_lt_iff; lia). reflexivity.
  - intros l r E. destruct (new_statesnapshot_backup_range_ok_inv l r E) as [Hc _].
    apply snapshot_chain_chain in Hc.
    refine (chain_impl _ _ (fun _ => True) l _ _ Hc); [| apply Forall_forall; intros; exact I].
    intros a b _ [Hab _]. unfold cmp_state_snapshot_meta, lex.
    replace (N.compare _ _) with Lt by (symmetry; apply N.compare_lt_iff; lia). reflexivity.
  - intros l r E Hle. destruct (new_transaction_backup_range_ok_inv l r E) as [Hc _].
    apply transaction_chain_chain in Hc. revert Hle Hc. apply chain_impl.
    intros a b Ha Hab. unfold cmp_transaction_meta, lex.
    replace (N.compare _ _) with Lt by (symmetry; apply N.compare_lt_iff; lia). reflexivity.
Qed.

Lemma compacted_members_sorted_witness :
  chain (fun a b => cmp_epoch_ending_meta a b = Lt) [ee 0 4 0 100; ee 5 9 101 200] /\
  chain (fun a b => cmp_state_snapshot_meta a b = Lt) [ss 10 1000; ss 11 1001] /\
  chain (fun a b => cmp_transaction_meta a b = Lt) [tx 0 99; tx 100 199].
Proof.
  destruct compacted_members_sorted as [He [Hs Ht]].
  split; [|split].
  - refine (He [ee 0 4 0 100; ee 5 9 101 200] _ eq_refl _). repeat constructor; vm_compute; discriminate.
  - exact (Hs [ss 10 1000; ss 11 1001] _ eq_refl).
  - refine (Ht [tx 0 99; tx 100 199] _ eq_refl _). repeat constructor; vm_compute; discriminate.
Defined.

(** ** A compacted range covers exactly its members *)

Lemma epoch_chain_count (x : EpochEndingBackupMeta.t) (l : list EpochEndingBackupMeta.t) :
  epoch_chain (x :: l) ->
  Forall (fun m => EpochEndingBackupMeta.first_epoch m <= EpochEndingBackupMeta.last_epoch m) (x :: l) ->
  sum_N epoch_count (x :: l) =
    EpochEndingBackupMeta.last_epoch (last (x :: l) x) + 1 - EpochEndingBackupMeta.first_epoch x /\
  EpochEndingBackupMeta.first_epoch x <= EpochEndingBackupMeta.last_epoch (last (x :: l) x).
Proof.
  revert x. induction l as [|y l IH]; intros x Hc Hle.
  - inversion Hle; subst. cbn. unfold epoch_count. split; lia.
  - destruct Hc as [Hxy Hc]. inversion Hle as [|? ? Hx Hle']; subst.
    destruct (IH y Hc Hle') as [Hs Hy].
    change (sum_N epoch_count (x :: y :: l)) with (epoch_count x + sum_N epoch_count (y :: l)).
    rewrite Hs, last_cons_cons, (last_default y l x y). unfold epoch_count. split; lia.
Qed.

(** The epochs of a compacted epoch-ending range, counted from its bounds,
    are the epochs of its members added up (members with [first_epoch <=
    last_epoch]): no epoch is missing or counted twice. *)
Theorem epoch_ending_range_epoch_count (l : list EpochEndingBackupMeta.t)
  (R : EpochEndingBackupMetaRange.t) :
  Forall wf_epoch_ending l ->
  Forall (fun m => EpochEndingBackupMeta.first_epoch m <= EpochEndingBackupMeta.last_epoch m) l ->
  new_epoch_ending_backup_range l = Ok (EpochEndingBackupRange R) ->
  sum_N epoch_count l =
    EpochEndingBackupMetaRange.last_epoch R + 1 - EpochEndingBackupMetaRange.first_epoch R.
Proof.
  intros Hw Hle E. apply (epoch_ending_compaction_iff l _ Hw) in E.
  destruct E as (first & rest & -> & Hc & _ & Er). injection Er as ->. cbn.
  apply (epoch_chain_count first rest Hc Hle).
Qed.

Lemma epoch_ending_range_epoch_count_witness :
  sum_N epoch_count [ee 0 4 0 100; ee 5 9 101 200] = 9 + 1 - 0.
Proof.
  refine (epoch_ending_range_epoch_count [ee 0 4 0 100; ee 5 9 101 200]
            (EpochEndingBackupMetaRange.mk 0 9 0 200 [ee 0 4 0 100; ee 5 9 101 200]) _ _ eq_refl);
    [solve_wf | repeat constructor; vm_compute; discriminate].
Defined.

Lemma transaction_chain_count (x : TransactionBackupMeta.t) (l : list TransactionBackupMeta.t) :
  transaction_chain (x :: l) ->
  Forall (fun m => TransactionBackupMeta.first_version m <= TransactionBackupMeta.last_version m) (x :: l) ->
  sum_N version_count (x :: l) =
    TransactionBackupMeta.last_version (last (x :: l) x) + 1 - TransactionBackupMeta.first_version x /\
  TransactionBackupMeta.first_version x <= TransactionBackupMeta.last_version (last (x :: l) x).
Proof.
  revert x. induction l as [|y l IH]; intros x Hc Hle.
  - inversion Hle; subst. cbn. unfold version_count. split; lia.
  - destruct Hc as [Hxy Hc]. inversion Hle as [|? ? Hx Hle']; subst.
    destruct (IH y Hc Hle') as [Hs Hy].
    change (sum_N version_count (x :: y :: l)) with (version_count x + sum_N version_count (y :: l)).
    rewrite Hs, last_cons_cons, (last_default y l x y). unfold version_count. split; lia.
Qed.

(** The versions of a compacted transaction range, counted from its bounds,
    are the versions of its members added up (members with [first_version <=
    last_version]). *)
Theorem transaction_range_version_count (l : list TransactionBackupMeta.t)
  (R : TransactionBackupMetaRange.t) :
  Forall wf_transaction l ->
  Forall (fun m => TransactionBackupMeta.first_version m <= TransactionBackupMeta.last_version m) l ->
  new_transaction_backup_range l = Ok (TransactionBackupRange R) ->
  sum_N version_count l =
    TransactionBackupMetaRange.last_version R + 1 - TransactionBackupMetaRange.first_version R.
Proof.
  intros Hw Hle E. apply (transaction_compaction_iff l _ Hw) in E.
  destruct E as (first & rest & -> & Hc & _ & Er). injection Er as ->. cbn.
  apply (transaction_chain_count first rest Hc Hle).
Qed.

Lemma transaction_range_version_count_witness :
  sum_N version_count [tx 0 99; tx 100 199] = 199 + 1 - 0.
Proof.
  refine (transaction_range_version_count [tx 0 99; tx 100 199]
            (TransactionBackupMetaRange.mk 0 199 [tx 0 99; tx 100 199]) _ _ eq_refl);
    [solve_wf | repeat constructor; vm_compute; discriminate].
Defined.

Lemma snapshot_chain_length (x : StateSnapshotBackupMeta.t) (l : list StateSnapshotBackupMeta.t) :
  snapshot_chain (x :: l) ->
  StateSnapshotBackupMeta.epoch (last (x :: l) x) = StateSnapshotBackupMeta.epoch x + N.of_nat (List.length l) /\
  StateSnapshotBackupMeta.version (last (x :: l) x) = StateSnapshotBackupMeta.version x + N.of_nat (List.length l).
Proof.
  revert x. induction l as [|y l IH]; intros x Hc.
  - cbn. split; lia.
  - destruct Hc as [He [Hv Hc]]. destruct (IH y Hc) as [Hey Hvy].
    rewrite last_cons_cons, (last_default y l x y), Hey, Hvy.
    cbn [List.length]. split; lia.
Qed.

(** A compacted snapshot range has one member per epoch and per version of
    its bounds: its length is [last_epoch - first_epoch + 1] and also
    [last_version - first_version + 1]. *)
Theorem statesnapshot_range_length (l : list StateSnapshotBackupMeta.t)
  (R : StateSnapshotBackupMetaRange.t) :
  Forall wf_state_snapshot l ->
  new_statesnapshot_backup_range l = Ok (StateSnapshotBackupRange R) ->
  N.of_nat (List.length l) =
    StateSnapshotBackupMetaRange.last_epoch R + 1 - StateSnapshotBackupMetaRange.first_epoch R /\
  N.of_nat (List.length l) =
    StateSnapshotBackupMetaRange.last_version R + 1 - StateSnapshotBackupMetaRange.first_version R.
Proof.
  intros Hw E. apply (statesnapshot_compaction_iff l _ Hw) in E.
  destruct E as (first & rest & -> & Hc & _ & _ & Er). injection Er as ->.
  cbn [StateSnapshotBackupMetaRange.first_epoch StateSnapshotBackupMetaRange.last_epoch
       StateSnapshotBackupMetaRange.first_version StateSnapshotBackupMetaRange.last_version].
  destruct (snapshot_chain_length first rest Hc) as [He Hv].
  cbn [last] in He, Hv. rewrite He, Hv.
  change (List.length (first :: rest)) with (S (List.length rest)). rewrite Nat2N.inj_succ.
  split; lia.
Qed.

Lemma statesnapshot_range_length_witness :
  N.of_nat (List.length [ss 10 1000; ss 11 1001; ss 12 1002]) = 12 + 1 - 10 /\
  N.of_nat (List.length [ss 10 1000; ss 11 1001; ss 12 1002]) = 1002 + 1 - 1000.
Proof.
  refine (statesnapshot_range_length [ss 10 1000; ss 11 1001; ss 12 1002]
            (StateSnapshotBackupMetaRange.mk 10 12 1000 1002 [ss 10 1000; ss 11 1001; ss 12 1002])
            _ eq_refl); solve_wf.
Defined.
